(** * A shallow embedding of the chat server [server.js]

    The server keeps three process-wide registries ([users], [messages],
    [chats], all JavaScript [Map]s) and, per socket connection, one closure
    variable [currentUserId].  Every socket event handler runs to completion
    on the single-threaded event loop, so a handler is a pure function from
    the registries (and the connection's [currentUserId]) to new registries
    and the list of events it emits.

    Conventions of the embedding:
    - strings are [string]; an absent (undefined / null) field is [None];
    - payload fields are taken at the types the handlers use them at
      (identifiers and texts are strings, [participantIds] is an array of
      strings, [file] is a descriptor object);
    - a JavaScript [Map] is an association list in insertion order, because
      the handlers iterate over [entries()];
    - the two impure calls, [Date.now()] and [generateId()], are read from an
      environment record that accompanies each event. *)

From Stdlib Require Import List String Ascii ZArith Bool Lia.
Import ListNotations.

Local Open Scope list_scope.

(** ** JavaScript primitives used by the handlers *)

Module JS.

(** Truthiness of a string value: only the empty string is falsy. *)
Definition truthy_str (s : string) : bool := negb (String.eqb s "").

(** Truthiness of a possibly absent string. *)
Definition truthy (o : option string) : bool :=
  match o with
  | Some s => truthy_str s
  | None => false
  end.

(** [a || d] where [a] is a possibly absent string and [d] a string. *)
Definition or_else (a : option string) (d : string) : string :=
  match a with
  | Some s => if truthy_str s then s else d
  | None => d
  end.

(** [a || b] where both are possibly absent strings. *)
Definition or_opt (a b : option string) : option string :=
  if truthy a then a else b.

(** [a === b] on possibly absent strings. *)
Definition strict_eq (a b : option string) : bool :=
  match a, b with
  | Some x, Some y => String.eqb x y
  | None, None => true
  | _, _ => false
  end.

(** [Array.prototype.includes]. *)
Definition includes (l : list string) (x : string) : bool :=
  existsb (String.eqb x) l.

(** [Array.prototype.join]. *)
Fixpoint join (sep : string) (l : list string) : string :=
  match l with
  | [] => EmptyString
  | [x] => x
  | x :: r => String.append x (String.append sep (join sep r))
  end.

(** [Array.prototype.sort] with the default comparator on strings: a stable
    sort by code-unit order. *)
Fixpoint insert (x : string) (l : list string) : list string :=
  match l with
  | [] => [x]
  | y :: r => if String.leb x y then x :: y :: r else y :: insert x r
  end.

Fixpoint sort (l : list string) : list string :=
  match l with
  | [] => []
  | x :: r => insert x (sort r)
  end.

(** Last element of an array ([a[a.length - 1]]), absent on the empty one. *)
Fixpoint last_elem {A : Type} (l : list A) : option A :=
  match l with
  | [] => None
  | [x] => Some x
  | _ :: r => last_elem r
  end.

End JS.

(** ** [Map] with string keys, in insertion order *)

Section JSMap.

Context {V : Type}.

Definition JSMap := list (string * V).

Fixpoint map_get (k : string) (m : list (string * V)) : option V :=
  match m with
  | [] => None
  | (k', v) :: r => if String.eqb k k' then Some v else map_get k r
  end.

Definition map_has (k : string) (m : list (string * V)) : bool :=
  match map_get k m with
  | Some _ => true
  | None => false
  end.

(** [Map.prototype.set]: an existing key keeps its position, a new key goes
    to the end. *)
Fixpoint map_set (k : string) (v : V) (m : list (string * V))
  : list (string * V) :=
  match m with
  | [] => [(k, v)]
  | (k', v') :: r =>
      if String.eqb k k' then (k, v) :: r else (k', v') :: map_set k v r
  end.

(** In-place mutation of the object stored under [k]
    ([const o = m.get(k); o.f = ...]). *)
Fixpoint map_mutate (k : string) (f : V -> V) (m : list (string * V))
  : list (string * V) :=
  match m with
  | [] => []
  | (k', v') :: r =>
      if String.eqb k k' then (k', f v') :: r
      else (k', v') :: map_mutate k f r
  end.

(** [Map.prototype.delete]. *)
Fixpoint map_delete (k : string) (m : list (string * V))
  : list (string * V) :=
  match m with
  | [] => []
  | (k', v') :: r =>
      if String.eqb k k' then r else (k', v') :: map_delete k r
  end.

Definition keys (m : list (string * V)) : list string := map fst m.

End JSMap.

Arguments JSMap V : clear implicits.

(** ** Stored entities *)

(** The descriptor of an uploaded file ([fileInfo]). *)
Module FileInfo.
Record t := mk {
  filename : string;
  originalName : string;
  mimetype : string;
  size : Z;
  url : string
}.
End FileInfo.

(** A value of the [users] map. *)
Module User.
Record t := mk {
  username : option string;
  socketId : string;
  online : bool;
  createdAt : Z
}.
End User.

Inductive ChatType := private | group.

(** A value of the [chats] map. *)
Module Chat.
Record t := mk {
  participants : list string;
  type : ChatType;
  name : option string;
  createdAt : Z;
  createdBy : option string
}.
End Chat.

(** An element of a chat's message array. *)
Module Message.
Record t := mk {
  id : string;
  chatId : string;
  senderId : string;
  senderName : string;
  text : string;
  file : option FileInfo.t;
  timestamp : Z;
  read : bool
}.
End Message.

(** The three registries. *)
Record Store := mkStore {
  users : JSMap User.t;
  messages : JSMap (list Message.t);
  chats : JSMap Chat.t
}.

Definition empty_store : Store := mkStore [] [] [].

(** ** Emitted payloads *)

(** An element of [userChats] in ['login-success']. *)
Module ChatSummary.
Record t := mk {
  chatId : string;
  name : string;
  type : ChatType;
  participants : list string;
  lastMessage : option (string * Z);
  online : bool;
  unread : Z
}.
End ChatSummary.

(** An element of ['users-list']. *)
Module UserEntry.
Record t := mk {
  userId : string;
  username : option string;
  online : bool
}.
End UserEntry.

(** The chat description sent in ['chat-started'] and ['new-chat']. *)
Module ChatInfo.
Record t := mk {
  chatId : string;
  name : string;
  type : ChatType;
  participants : list string;
  online : bool
}.
End ChatInfo.

(** A message as sent to one recipient, with its [sent] tag. *)
Module MsgView.
Record t := mk {
  id : string;
  text : string;
  file : option FileInfo.t;
  senderId : string;
  senderName : string;
  timestamp : Z;
  sent : bool
}.
End MsgView.

(** Events the server emits, named after their socket event. *)
Inductive ServerEvent :=
| login_success (userId : string) (username : option string)
                (userChats : list ChatSummary.t)
| user_online (userId : string) (username : option string)
| users_list (onlineUsers : list UserEntry.t)
| chat_started (info : ChatInfo.t) (history : list Message.t)
| new_chat (info : ChatInfo.t)
| new_message (chatId : string) (message : MsgView.t)
| file_uploaded (chatId : string) (file : FileInfo.t)
| upload_error (error : string)
| user_typing (chatId : string) (userId : string) (username : option string)
              (isTyping : bool)
| messages_loaded (chatId : string) (history : list MsgView.t)
| user_offline (userId : string) (username : option string).

(** Where an event goes: [socket.emit] and [io.to(id).emit] reach the one
    socket with that id; [socket.broadcast.emit] reaches every connected
    socket but the emitting one. *)
Inductive Target :=
| to_socket (socketId : string)
| broadcast_except (socketId : string).

Definition Emit : Type := Target * ServerEvent.

(** What one event reads from the outside world. *)
Record Env := mkEnv {
  Date_now : Z;                 (* Date.now() *)
  generateId : string;          (* the value generateId() returns *)
  uploadStamp : string;         (* Date.now() + '-' + Math.round(random * 1E9) *)
  written : option Z            (* buffer length, or None when the write throws *)
}.

(** ** Helpers *)

(** Helper to get chat ID between two users:
    [[user1, user2].sort().join('-')].  (The other helper, [generateId], is
    the environment field of that name.) *)
Definition getChatId (user1 user2 : string) : string :=
  JS.join "-" (JS.sort [user1; user2]).

(** [users.get(id)?.username]. *)
Definition username_of (us : JSMap User.t) (id : string) : option string :=
  match map_get id us with
  | Some user => User.username user
  | None => None
  end.

(** [users.get(id)?.online || false]. *)
Definition online_of (us : JSMap User.t) (id : string) : bool :=
  match map_get id us with
  | Some user => User.online user
  | None => false
  end.

(** The guard of every fan-out loop:
    [participant && participant.online && participant.socketId]. *)
Definition deliverable (us : JSMap User.t) (participantId : string) : bool :=
  match map_get participantId us with
  | Some participant =>
      User.online participant && JS.truthy_str (User.socketId participant)
  | None => false
  end.

(** The socket a fan-out loop addresses for [participantId]. *)
Definition socket_of (us : JSMap User.t) (participantId : string) : string :=
  match map_get participantId us with
  | Some participant => User.socketId participant
  | None => EmptyString
  end.

(** The per-recipient copy of a message built in ['send-message'] and
    ['get-messages']. *)
Definition view (msg : Message.t) (sent : bool) : MsgView.t :=
  {| MsgView.id := Message.id msg;
     MsgView.text := Message.text msg;
     MsgView.file := Message.file msg;
     MsgView.senderId := Message.senderId msg;
     MsgView.senderName := Message.senderName msg;
     MsgView.timestamp := Message.timestamp msg;
     MsgView.sent := sent |}.

(** ** The socket event handlers

    Each handler takes the environment, the id of the socket it is registered
    on, the connection's [currentUserId], the fields it destructures from
    [data], and the registries. *)

(** The [for ... of users.entries()] loop of ['login']: the id of the first
    user whose name is [username]. *)
Definition find_by_username (username : option string) (us : JSMap User.t)
  : option string :=
  match find (fun e => JS.strict_eq (User.username (snd e)) username) us with
  | Some e => Some (fst e)
  | None => None
  end.

(** One entry of [userChats]. *)
Definition summarize (st : Store) (userId : string) (chatId : string)
    (chat : Chat.t) : ChatSummary.t :=
  let chatMessages :=
    match map_get chatId (messages st) with Some l => l | None => [] end in
  let lastMessage := JS.last_elem chatMessages in
  let otherParticipantId :=
    find (fun p => negb (String.eqb p userId)) (Chat.participants chat) in
  let otherParticipant :=
    match otherParticipantId with
    | Some p => map_get p (users st)
    | None => None
    end in
  {| ChatSummary.chatId := chatId;
     ChatSummary.name :=
       JS.or_else
         (JS.or_opt (Chat.name chat)
            (match otherParticipant with
             | Some u => User.username u
             | None => None
             end)) "Unknown";
     ChatSummary.type := Chat.type chat;
     ChatSummary.participants := Chat.participants chat;
     ChatSummary.lastMessage :=
       match lastMessage with
       | Some m =>
           Some (if JS.truthy_str (Message.text m) then Message.text m
                 else match Message.file m with
                      | Some _ => "📎 File"%string
                      | None => EmptyString
                      end,
                 Message.timestamp m)
       | None => None
       end;
     ChatSummary.online :=
       match otherParticipant with
       | Some u => User.online u
       | None => false
       end;
     ChatSummary.unread := 0%Z |}.

(** [socket.on('login', ...)].  Returns the new [currentUserId] as well. *)
Definition on_login (e : Env) (socket : string) (username : option string)
    (st : Store) : option string * Store * list Emit :=
  let create :=
    (generateId e,
     map_set (generateId e)
       {| User.username := username;
          User.socketId := socket;
          User.online := true;
          User.createdAt := Date_now e |} (users st)) in
  let '(userId, users') :=
    match find_by_username username (users st) with
    | Some found =>
        if JS.truthy_str found then
          (found,
           map_mutate found
             (fun user =>
                {| User.username := User.username user;
                   User.socketId := socket;
                   User.online := true;
                   User.createdAt := User.createdAt user |}) (users st))
        else create
    | None => create
    end in
  let st' := mkStore users' (messages st) (chats st) in
  let userChats :=
    flat_map
      (fun c =>
         if JS.includes (Chat.participants (snd c)) userId
         then [summarize st' userId (fst c) (snd c)] else [])
      (chats st') in
  (Some userId, st',
   [ (to_socket socket, login_success userId username userChats);
     (broadcast_except socket, user_online userId username) ]).

(** [socket.on('get-users', ...)]. *)
Definition on_get_users (socket : string) (currentUserId : option string)
    (st : Store) : Store * list Emit :=
  let onlineUsers :=
    flat_map
      (fun u =>
         if negb (JS.strict_eq (Some (fst u)) currentUserId)
         then [ {| UserEntry.userId := fst u;
                   UserEntry.username := User.username (snd u);
                   UserEntry.online := User.online (snd u) |} ]
         else [])
      (users st) in
  (st, [ (to_socket socket, users_list onlineUsers) ]).

(** [socket.on('start-chat', ...)]. *)
Definition on_start_chat (e : Env) (socket : string)
    (currentUserId targetUserId : option string) (st : Store)
  : Store * list Emit :=
  match currentUserId, targetUserId with
  | Some cur, Some target =>
      if negb (JS.truthy_str cur) || negb (JS.truthy_str target) then (st, [])
      else
        let chatId := getChatId cur target in
        let st' :=
          if negb (map_has chatId (chats st)) then
            mkStore (users st)
              (map_set chatId [] (messages st))
              (map_set chatId
                 {| Chat.participants := [cur; target];
                    Chat.type := private;
                    Chat.name := None;
                    Chat.createdAt := Date_now e;
                    Chat.createdBy := None |} (chats st))
          else st in
        let targetUser := map_get target (users st') in
        let started :=
          (to_socket socket,
           chat_started
             {| ChatInfo.chatId := chatId;
                ChatInfo.name :=
                  JS.or_else
                    (match targetUser with
                     | Some u => User.username u
                     | None => None
                     end) "Unknown";
                ChatInfo.type := private;
                ChatInfo.participants := [cur; target];
                ChatInfo.online :=
                  match targetUser with
                  | Some u => User.online u
                  | None => false
                  end |}
             (match map_get chatId (messages st') with
              | Some l => l
              | None => []
              end)) in
        let notify :=
          match targetUser with
          | Some u =>
              if User.online u then
                [ (to_socket (User.socketId u),
                   new_chat
                     {| ChatInfo.chatId := chatId;
                        ChatInfo.name :=
                          JS.or_else (username_of (users st') cur) "Unknown";
                        ChatInfo.type := private;
                        ChatInfo.participants := [cur; target];
                        ChatInfo.online := true |}) ]
              else []
          | None => []
          end in
        (st', started :: notify)
  | _, _ => (st, [])
  end.

(** [socket.on('send-message', ...)]. *)
Definition on_send_message (e : Env) (socket : string)
    (currentUserId chatId text : option string) (file : option FileInfo.t)
    (st : Store) : Store * list Emit :=
  match currentUserId, chatId with
  | Some cur, Some cid =>
      if negb (JS.truthy_str cur) || negb (JS.truthy_str cid) then (st, [])
      else if negb (JS.truthy text)
              && negb (match file with Some _ => true | None => false end)
      then (st, [])
      else
        match map_get cid (chats st) with
        | None => (st, [])
        | Some chat =>
            if negb (JS.includes (Chat.participants chat) cur) then (st, [])
            else
              let message :=
                {| Message.id := generateId e;
                   Message.chatId := cid;
                   Message.senderId := cur;
                   Message.senderName :=
                     JS.or_else (username_of (users st) cur) "Unknown";
                   Message.text := JS.or_else text "";
                   Message.file := file;
                   Message.timestamp := Date_now e;
                   Message.read := false |} in
              let chatMessages :=
                match map_get cid (messages st) with
                | Some l => l
                | None => []
                end in
              let st' :=
                mkStore (users st)
                  (map_set cid (chatMessages ++ [message]) (messages st))
                  (chats st) in
              (st',
               flat_map
                 (fun participantId =>
                    if deliverable (users st') participantId then
                      [ (to_socket (socket_of (users st') participantId),
                         new_message cid
                           (view message (String.eqb participantId cur))) ]
                    else [])
                 (Chat.participants chat))
        end
  | _, _ => (st, [])
  end.

(** [socket.on('upload-file', ...)].  The bytes go to the file system; the
    registries are not touched. *)
Definition on_upload_file (e : Env) (socket : string)
    (currentUserId chatId fileData : option string)
    (fileName fileType : string) (st : Store) : Store * list Emit :=
  match chatId with
  | Some cid =>
      if negb (JS.truthy currentUserId) || negb (JS.truthy_str cid)
         || negb (JS.truthy fileData)
      then (st, [])
      else
        let uniqueFilename :=
          String.append (uploadStamp e) (String.append "-" fileName) in
        match written e with
        | Some buffer_length =>
            (st,
             [ (to_socket socket,
                file_uploaded cid
                  {| FileInfo.filename := uniqueFilename;
                     FileInfo.originalName := fileName;
                     FileInfo.mimetype := fileType;
                     FileInfo.size := buffer_length;
                     FileInfo.url :=
                       String.append "/uploads/" uniqueFilename |}) ])
        | None =>
            (st, [ (to_socket socket, upload_error "Failed to upload file") ])
        end
  | None => (st, [])
  end.

(** [socket.on('typing', ...)]. *)
Definition on_typing (socket : string) (currentUserId chatId : option string)
    (isTyping : bool) (st : Store) : Store * list Emit :=
  match currentUserId, chatId with
  | Some cur, Some cid =>
      if negb (JS.truthy_str cur) || negb (JS.truthy_str cid) then (st, [])
      else
        match map_get cid (chats st) with
        | None => (st, [])
        | Some chat =>
            (st,
             flat_map
               (fun participantId =>
                  if negb (String.eqb participantId cur) then
                    if deliverable (users st) participantId then
                      [ (to_socket (socket_of (users st) participantId),
                         user_typing cid cur (username_of (users st) cur)
                           isTyping) ]
                    else []
                  else [])
               (Chat.participants chat))
        end
  | _, _ => (st, [])
  end.

(** [socket.on('create-group', ...)]. *)
Definition on_create_group (e : Env) (socket : string)
    (currentUserId name : option string)
    (participantIds : option (list string)) (st : Store)
  : Store * list Emit :=
  match currentUserId, participantIds with
  | Some cur, Some members =>
      if negb (JS.truthy_str cur) || negb (JS.truthy name)
         || Nat.eqb (List.length members) 0
      then (st, [])
      else
        let chatId := generateId e in
        let allParticipants := cur :: members in
        let st' :=
          mkStore (users st)
            (map_set chatId [] (messages st))
            (map_set chatId
               {| Chat.participants := allParticipants;
                  Chat.type := group;
                  Chat.name := name;
                  Chat.createdAt := Date_now e;
                  Chat.createdBy := Some cur |} (chats st)) in
        (st',
         flat_map
           (fun participantId =>
              if deliverable (users st') participantId then
                [ (to_socket (socket_of (users st') participantId),
                   new_chat
                     {| ChatInfo.chatId := chatId;
                        ChatInfo.name := JS.or_else name "";
                        ChatInfo.type := group;
                        ChatInfo.participants := allParticipants;
                        ChatInfo.online := false |}) ]
              else [])
           allParticipants)
  | _, _ => (st, [])
  end.

(** [socket.on('get-messages', ...)]. *)
Definition on_get_messages (socket : string)
    (currentUserId chatId : option string) (st : Store) : Store * list Emit :=
  match currentUserId, chatId with
  | Some cur, Some cid =>
      if negb (JS.truthy_str cur) || negb (JS.truthy_str cid) then (st, [])
      else
        match map_get cid (chats st) with
        | None => (st, [])
        | Some chat =>
            if negb (JS.includes (Chat.participants chat) cur) then (st, [])
            else
              let chatMessages :=
                match map_get cid (messages st) with
                | Some l => l
                | None => []
                end in
              (st,
               [ (to_socket socket,
                  messages_loaded cid
                    (map (fun msg =>
                            view msg (String.eqb (Message.senderId msg) cur))
                         chatMessages)) ])
        end
  | _, _ => (st, [])
  end.

(** [socket.on('disconnect', ...)]. *)
Definition on_disconnect (socket : string) (currentUserId : option string)
    (st : Store) : Store * list Emit :=
  match currentUserId with
  | Some cur =>
      if JS.truthy_str cur then
        match map_get cur (users st) with
        | Some user =>
            (mkStore
               (map_mutate cur
                  (fun user =>
                     {| User.username := User.username user;
                        User.socketId := User.socketId user;
                        User.online := false;
                        User.createdAt := User.createdAt user |}) (users st))
               (messages st) (chats st),
             [ (broadcast_except socket,
                user_offline cur (User.username user)) ])
        | None => (st, [])
        end
      else (st, [])
  | None => (st, [])
  end.

(** ** The server as a whole

    [io.on('connection', ...)] gives every socket its own [currentUserId],
    initially [null]; the handlers of a socket read and write that variable.
    [sessions] maps the id of each connected socket to its [currentUserId]. *)

Inductive ClientEvent :=
| login (username : option string)
| get_users
| start_chat (targetUserId : option string)
| send_message (chatId text : option string) (file : option FileInfo.t)
| upload_file (chatId fileData : option string) (fileName fileType : string)
| typing (chatId : option string) (isTyping : bool)
| create_group (name : option string) (participantIds : option (list string))
| get_messages (chatId : option string)
| disconnect.

Record Server := mkServer {
  store : Store;
  sessions : JSMap (option string)
}.

Definition initial : Server := mkServer empty_store [].

Inductive Input :=
| connection (socket : string)
| received (socket : string) (e : Env) (ev : ClientEvent).

(** Dispatch of one event to the handler registered for it. *)
Definition handle (e : Env) (socket : string) (currentUserId : option string)
    (ev : ClientEvent) (st : Store) : option string * Store * list Emit :=
  let keep (r : Store * list Emit) := (currentUserId, fst r, snd r) in
  match ev with
  | login username => on_login e socket username st
  | get_users => keep (on_get_users socket currentUserId st)
  | start_chat targetUserId =>
      keep (on_start_chat e socket currentUserId targetUserId st)
  | send_message chatId text file =>
      keep (on_send_message e socket currentUserId chatId text file st)
  | upload_file chatId fileData fileName fileType =>
      keep (on_upload_file e socket currentUserId chatId fileData fileName
              fileType st)
  | typing chatId isTyping =>
      keep (on_typing socket currentUserId chatId isTyping st)
  | create_group name participantIds =>
      keep (on_create_group e socket currentUserId name participantIds st)
  | get_messages chatId => keep (on_get_messages socket currentUserId chatId st)
  | disconnect => keep (on_disconnect socket currentUserId st)
  end.

(** One turn of the event loop.  An event on a socket that is not connected
    has no handler to run. *)
Definition step (sv : Server) (i : Input) : Server * list Emit :=
  match i with
  | connection socket =>
      (mkServer (store sv) (map_set socket None (sessions sv)), [])
  | received socket e ev =>
      match map_get socket (sessions sv) with
      | None => (sv, [])
      | Some currentUserId =>
          let '(cur', st', out) := handle e socket currentUserId ev (store sv) in
          (mkServer st'
             (match ev with
              | disconnect => map_delete socket (sessions sv)
              | _ => map_set socket cur' (sessions sv)
              end),
           out)
      end
  end.

(** A whole trace of inputs, with everything emitted along the way. *)
Fixpoint run (sv : Server) (tr : list Input) : Server * list Emit :=
  match tr with
  | [] => (sv, [])
  | i :: tr' =>
      let (sv1, out1) := step sv i in
      let (sv2, out2) := run sv1 tr' in
      (sv2, out1 ++ out2)
  end.

(** What the environment guarantees for an input: socket ids are non-empty,
    and [generateId()] returns a non-empty id that is not in use. *)
Definition input_ok (sv : Server) (i : Input) : bool :=
  match i with
  | connection socket => JS.truthy_str socket
  | received socket e _ =>
      JS.truthy_str socket
      && JS.truthy_str (generateId e)
      && negb (map_has (generateId e) (users (store sv)))
      && negb (map_has (generateId e) (chats (store sv)))
  end.

Fixpoint trace_ok (sv : Server) (tr : list Input) : bool :=
  match tr with
  | [] => true
  | i :: tr' => input_ok sv i && trace_ok (fst (step sv i)) tr'
  end.

(** Properties of the registries that hold in every state the server can be
    in: user ids and stored socket ids are non-empty, and a message array
    exists only for a registered chat. *)
Record store_ok (st : Store) : Prop := mk_store_ok {
  ok_user_ids : forall id, map_has id (users st) = true -> id <> EmptyString;
  ok_sockets :
    forall id user,
      map_get id (users st) = Some user -> User.socketId user <> EmptyString;
  ok_logs :
    forall cid, map_has cid (messages st) = true ->
                map_has cid (chats st) = true
}.

(** The same three properties as a check that can be run on a state. *)
Definition store_okb (st : Store) : bool :=
  forallb JS.truthy_str (keys (users st))
  && forallb (fun u => JS.truthy_str (User.socketId (snd u))) (users st)
  && forallb (fun cid => map_has cid (chats st)) (keys (messages st)).

(** Chat ids carried by the ['chat-started'] replies in a list of emits. *)
Definition started_ids (out : list Emit) : list string :=
  flat_map
    (fun x =>
       match snd x with
       | chat_started info _ => [ChatInfo.chatId info]
       | _ => []
       end) out.

(** One ['start-chat'] call for the pair [(A, B)]: issued by [A] towards [B]
    when [from_first] holds, by [B] towards [A] otherwise. *)
Record DirectCall := mkDirectCall {
  from_first : bool;
  call_env : Env;
  call_socket : string
}.

Definition direct_call (A B : string) (c : DirectCall) (st : Store)
  : Store * list Emit :=
  if from_first c
  then on_start_chat (call_env c) (call_socket c) (Some A) (Some B) st
  else on_start_chat (call_env c) (call_socket c) (Some B) (Some A) st.

Fixpoint direct_calls (A B : string) (cs : list DirectCall) (st : Store)
  : Store * list Emit :=
  match cs with
  | [] => (st, [])
  | c :: cs' =>
      let (st1, out1) := direct_call A B c st in
      let (st2, out2) := direct_calls A B cs' st1 in
      (st2, out1 ++ out2)
  end.

(** ** A concrete scenario

    Three clients connect and log in as alice, bob and mallory; alice opens a
    direct chat with bob and says hello; bob's client then goes away. *)

Definition env_at (t : Z) (fresh : string) : Env :=
  mkEnv t fresh "0-0" (Some 0%Z).

Definition demo_trace : list Input :=
  [ connection "s1"; received "s1" (env_at 1 "u1") (login (Some "alice"%string));
    connection "s2"; received "s2" (env_at 2 "u2") (login (Some "bob"%string));
    connection "s3";
    received "s3" (env_at 3 "u3") (login (Some "mallory"%string));
    received "s1" (env_at 4 "x4") (start_chat (Some "u2"%string));
    received "s1" (env_at 5 "m5")
      (send_message (Some "u1-u2"%string) (Some "hello"%string) None) ].

Definition demo : Server := Eval vm_compute in fst (run initial demo_trace).

Definition demo_bob_gone : Server :=
  Eval vm_compute in
    fst (step demo (received "s2" (env_at 6 "x6") disconnect)).

Definition photo : FileInfo.t :=
  FileInfo.mk "0-0-cat.png" "cat.png" "image/png" 1024 "/uploads/0-0-cat.png".

Definition hello : Message.t :=
  Message.mk "m5" "u1-u2" "u1" "alice" "hello" None 5 false.

Definition demo_reply : list Input :=
  [ received "s2" (env_at 7 "m7")
      (send_message (Some "u1-u2"%string) (Some "hi"%string) None);
    received "s3" (env_at 8 "g8")
      (create_group (Some "Team"%string) (Some ["u1"; "u2"]%string)) ].

(** ** Further notions used in the properties *)

(** A string without the separator ['-'], as every id built by [generateId]
    is (two base-36 numerals). *)
Fixpoint dash_free (s : string) : bool :=
  match s with
  | EmptyString => true
  | String c r => negb (Ascii.eqb c "-") && dash_free r
  end.

(** The events whose handler does something on a session that has not logged
    in: ['login'] itself and ['get-users'], which has no guard. *)
Definition acts_when_anonymous (ev : ClientEvent) : bool :=
  match ev with
  | login _ | get_users => true
  | _ => false
  end.

(** The body of [GET /api/health]: a fixed status, [users.size],
    [chats.size], the [reduce] that adds up the lengths of all message
    arrays, and a fixed flag. *)
Module Health.
Record t := mk {
  status : string;
  users : nat;
  chats : nat;
  messages : nat;
  uploadEnabled : bool
}.
End Health.

Definition api_health (st : Store) : Health.t :=
  {| Health.status := "ok";
     Health.users := List.length (users st);
     Health.chats := List.length (chats st);
     Health.messages :=
       fold_left (fun sum msgs => sum + List.length msgs)
         (map snd (messages st)) 0;
     Health.uploadEnabled := true |}.

(** No two users share an id or a name. *)
Definition users_unique (us : JSMap User.t) : Prop :=
  NoDup (keys us) /\ NoDup (map (fun u => User.username (snd u)) us).

(** What holds of a message [m] stored in the array of chat [cid]. *)
Definition message_ok (st : Store) (cid : string) (m : Message.t) : Prop :=
  Message.chatId m = cid
  /\ (exists chat, map_get cid (chats st) = Some chat
                   /\ In (Message.senderId m) (Chat.participants chat))
  /\ Message.read m = false
  /\ (Message.text m <> EmptyString \/ Message.file m <> None).

(** Where an emit of a handler running on [socket] may go: back to that
    socket; to the stored socket of a user whose [online] flag is set in
    [us]; or, as a presence notice, to everyone but that socket. *)
Definition scoped (us : JSMap User.t) (socket : string) (x : Emit) : Prop :=
  fst x = to_socket socket
  \/ (exists id user,
        map_get id us = Some user /\ User.online user = true
        /\ fst x = to_socket (User.socketId user))
  \/ (fst x = broadcast_except socket
      /\ exists id n, snd x = user_online id n \/ snd x = user_offline id n).

(** Every session that has logged in is bound to a registered user. *)
Definition sessions_bound (sv : Server) : Prop :=
  forall socket cur,
    In (socket, Some cur) (sessions sv) ->
    map_has cur (users (store sv)) = true.

(** The identity of a user record: what ['login'] fixes at creation. *)
Definition same_identity (u u' : User.t) : Prop :=
  User.username u' = User.username u /\ User.createdAt u' = User.createdAt u.

(** All stored messages are as [message_ok] says. *)
Definition logs_ok (st : Store) : Prop :=
  forall cid log m,
    map_get cid (messages st) = Some log -> In m log -> message_ok st cid m.

(** One health report shows no less than another. *)
Definition health_le (h h' : Health.t) : Prop :=
  Health.users h <= Health.users h'
  /\ Health.chats h <= Health.chats h'
  /\ Health.messages h <= Health.messages h'.

(** ** The upload filter

    [allowedTypes.test(s)] for the regular expression
    [/jpeg|jpg|png|gif|pdf|doc|docx|txt|zip|mp4|mp3|webm/]: an alternation of
    literals without anchors matches when one of the literals occurs
    somewhere in [s]. *)
Fixpoint occurs (tok s : string) : bool :=
  String.prefix tok s
  || match s with
     | EmptyString => false
     | String _ r => occurs tok r
     end.

Definition allowedTypes : list string :=
  [ "jpeg"; "jpg"; "png"; "gif"; "pdf"; "doc"; "docx"; "txt"; "zip"; "mp4";
    "mp3"; "webm" ]%string.

Definition allowedTypes_test (s : string) : bool :=
  existsb (fun tok => occurs tok s) allowedTypes.

(** The [fileFilter] of the multer upload: [true] for [cb(null, true)],
    [false] for the "Invalid file type" error.  Its first argument is the
    value of [path.extname(file.originalname).toLowerCase()], its second
    [file.mimetype]. *)
Definition fileFilter (extname_lower mimetype : string) : bool :=
  let extname := allowedTypes_test extname_lower in
  let mimetype := allowedTypes_test mimetype in
  extname && mimetype.

(** * Properties *)

(** ** Facts about the primitives *)

Lemma truthy_str_true (s : string) :
  JS.truthy_str s = true <-> s <> EmptyString.
Proof.
  unfold JS.truthy_str. rewrite negb_true_iff. apply String.eqb_neq.
Qed.

Lemma truthy_str_false (s : string) :
  JS.truthy_str s = false <-> s = EmptyString.
Proof.
  unfold JS.truthy_str. rewrite negb_false_iff. apply String.eqb_eq.
Qed.

Lemma includes_In (l : list string) (x : string) :
  JS.includes l x = true <-> In x l.
Proof.
  unfold JS.includes. rewrite existsb_exists. split.
  - intros [y [Hy Heq]]. apply String.eqb_eq in Heq. now subst.
  - intros H. exists x. split; [assumption | apply String.eqb_refl].
Qed.

Lemma flat_map_guard {A B : Type} (p : A -> bool) (f : A -> B) (l : list A) :
  flat_map (fun x => if p x then [f x] else []) l = map f (filter p l).
Proof.
  induction l as [|x l IH]; simpl; [reflexivity|].
  destruct (p x); simpl; now rewrite IH.
Qed.

(** The two-element sort does not depend on the order of its input. *)
Lemma sort_pair_comm (a b : string) : JS.sort [a; b] = JS.sort [b; a].
Proof.
  simpl.
  destruct (String.leb a b) eqn:Hab, (String.leb b a) eqn:Hba; try reflexivity.
  - now rewrite (String.leb_antisym _ _ Hab Hba).
  - destruct (String.leb_total a b); congruence.
Qed.

Lemma getChatId_comm (a b : string) : getChatId a b = getChatId b a.
Proof. unfold getChatId. now rewrite sort_pair_comm. Qed.

Lemma getChatId_self (a : string) :
  getChatId a a = String.append a (String.append "-" a).
Proof.
  unfold getChatId. simpl. now destruct (String.leb a a).
Qed.

(** ** Facts about [Map] *)

Section JSMapFacts.

Context {V : Type}.
Implicit Types (m : list (string * V)) (k : string) (v : V).

Lemma map_get_set_same k v m : map_get k (map_set k v m) = Some v.
Proof.
  induction m as [|[k' v'] m IH]; simpl.
  - now rewrite String.eqb_refl.
  - destruct (String.eqb k k') eqn:E; simpl.
    + now rewrite String.eqb_refl.
    + now rewrite E.
Qed.

Lemma map_get_set_other k k' v m :
  k' <> k -> map_get k' (map_set k v m) = map_get k' m.
Proof.
  intros Hne. induction m as [|[k0 v0] m IH]; simpl.
  - apply String.eqb_neq in Hne. now rewrite Hne.
  - destruct (String.eqb k k0) eqn:E; simpl.
    + apply String.eqb_eq in E. subst k0.
      apply String.eqb_neq in Hne. now rewrite Hne.
    + now rewrite IH.
Qed.

Lemma map_has_set_same k v m : map_has k (map_set k v m) = true.
Proof. unfold map_has. now rewrite map_get_set_same. Qed.

Lemma map_has_set k k' v m :
  map_has k' (map_set k v m) = String.eqb k' k || map_has k' m.
Proof.
  destruct (String.eqb_spec k' k) as [->|Hne]; simpl.
  - apply map_has_set_same.
  - unfold map_has. now rewrite map_get_set_other.
Qed.

Lemma map_set_fresh k v m :
  map_has k m = false -> map_set k v m = m ++ [(k, v)].
Proof.
  unfold map_has. induction m as [|[k' v'] m IH]; simpl; [reflexivity|].
  destruct (String.eqb k k'); [discriminate|].
  intros H. now rewrite IH.
Qed.

Lemma map_get_mutate k k' (f : V -> V) m :
  map_get k' (map_mutate k f m) =
  if String.eqb k' k then option_map f (map_get k m) else map_get k' m.
Proof.
  induction m as [|[k0 v0] m IH]; simpl.
  - now destruct (String.eqb k' k).
  - destruct (String.eqb_spec k k0) as [->|Hk]; simpl.
    + now destruct (String.eqb k' k0).
    + rewrite IH. destruct (String.eqb_spec k' k0) as [->|Hk'].
      * destruct (String.eqb_spec k0 k); [congruence | reflexivity].
      * reflexivity.
Qed.

Lemma map_has_mutate k k' (f : V -> V) m :
  map_has k' (map_mutate k f m) = map_has k' m.
Proof.
  unfold map_has. rewrite map_get_mutate.
  destruct (String.eqb_spec k' k) as [->|]; [|reflexivity].
  now destruct (map_get k m).
Qed.

Lemma keys_mutate k (f : V -> V) m : keys (map_mutate k f m) = keys m.
Proof.
  unfold keys. induction m as [|[k0 v0] m IH]; simpl; [reflexivity|].
  destruct (String.eqb k k0); simpl; [reflexivity | now rewrite IH].
Qed.

Lemma map_has_In k m : map_has k m = true <-> In k (keys m).
Proof.
  unfold map_has, keys. induction m as [|[k0 v0] m IH]; simpl.
  - split; [discriminate | tauto].
  - destruct (String.eqb_spec k k0) as [->|Hne].
    + split; auto.
    + rewrite IH. split; [auto | intros [H|H]; [congruence | assumption]].
Qed.

End JSMapFacts.

Lemma length_map_set {V : Type} (k : string) (v : V) (m : list (string * V)) :
  List.length (map_set k v m) =
  if map_has k m then List.length m else S (List.length m).
Proof.
  unfold map_has. induction m as [|[k' v'] m IH]; simpl; [reflexivity|].
  destruct (String.eqb k k'); simpl; [reflexivity|].
  rewrite IH. now destruct (map_get k m).
Qed.

(** ** ['start-chat'] *)

(** What a ['start-chat'] that passes its guard does: it replies with the
    deterministic chat id, the chat is registered afterwards, and a chat that
    was registered before leaves the registries as they were. *)
Lemma start_chat_effect (e : Env) (socket cur target : string) (st : Store) :
  cur <> EmptyString -> target <> EmptyString ->
  let r := on_start_chat e socket (Some cur) (Some target) st in
  started_ids (snd r) = [getChatId cur target]
  /\ map_has (getChatId cur target) (chats (fst r)) = true
  /\ (map_has (getChatId cur target) (chats st) = true -> fst r = st)
  /\ List.length (chats (fst r)) <= S (List.length (chats st)).
Proof.
  intros Hc Ht. unfold on_start_chat.
  apply truthy_str_true in Hc. apply truthy_str_true in Ht.
  rewrite Hc, Ht. cbn [negb orb].
  destruct (map_has (getChatId cur target) (chats st)) eqn:Hhas;
    cbn [negb fst snd].
  - repeat split; auto.
    unfold started_ids. cbn [flat_map snd ChatInfo.chatId].
    destruct (map_get target (users st)) as [u|]; [|reflexivity].
    now destruct (User.online u).
  - repeat split.
    + unfold started_ids. cbn [flat_map snd ChatInfo.chatId users].
      destruct (map_get target (users st)) as [u|]; [|reflexivity].
      now destruct (User.online u).
    + cbn [chats]. apply map_has_set_same.
    + discriminate.
    + cbn [chats]. rewrite length_map_set, Hhas. apply le_n.
Qed.

Lemma direct_call_effect (A B : string) (c : DirectCall) (st : Store) :
  A <> EmptyString -> B <> EmptyString ->
  let r := direct_call A B c st in
  started_ids (snd r) = [getChatId A B]
  /\ map_has (getChatId A B) (chats (fst r)) = true
  /\ (map_has (getChatId A B) (chats st) = true -> fst r = st)
  /\ List.length (chats (fst r)) <= S (List.length (chats st)).
Proof.
  intros HA HB. unfold direct_call. destruct (from_first c).
  - now apply start_chat_effect.
  - rewrite (getChatId_comm A B). now apply start_chat_effect.
Qed.

Lemma started_ids_app (o1 o2 : list Emit) :
  started_ids (o1 ++ o2) = started_ids o1 ++ started_ids o2.
Proof. unfold started_ids. apply flat_map_app. Qed.

Lemma direct_calls_existing (A B : string) (cs : list DirectCall) (st : Store) :
  A <> EmptyString -> B <> EmptyString ->
  map_has (getChatId A B) (chats st) = true ->
  fst (direct_calls A B cs st) = st
  /\ started_ids (snd (direct_calls A B cs st)) =
     repeat (getChatId A B) (List.length cs).
Proof.
  intros HA HB. induction cs as [|c cs IH]; intros Hhas; simpl.
  - split; reflexivity.
  - destruct (direct_call_effect A B c st HA HB) as (Hid & _ & Hsame & _).
    specialize (Hsame Hhas).
    destruct (direct_call A B c st) as [st1 out1]. cbn [fst snd] in *.
    subst st1. destruct (IH Hhas) as [Hst Hids].
    destruct (direct_calls A B cs st) as [st2 out2]. cbn [fst snd] in *.
    split; [assumption|].
    now rewrite started_ids_app, Hid, Hids.
Qed.

(** C3: for users [A] and [B], ['start-chat'] issued in either direction, any
    number of times, always replies with the one chat id
    [getChatId A B = getChatId B A]; the first call registers the chat if it
    is not there (adding at most one chat), and once the chat is registered
    no call changes the registries: no second chat, no reset message log. *)
Theorem direct_chat_order_independent_idempotent
    (A B : string) (c : DirectCall) (cs : list DirectCall) (st : Store) :
  A <> EmptyString -> B <> EmptyString ->
  let chatId := getChatId A B in
  let r1 := direct_call A B c st in
  let r2 := direct_calls A B cs (fst r1) in
  getChatId B A = chatId
  /\ started_ids (snd r1 ++ snd r2) = repeat chatId (S (List.length cs))
  /\ map_has chatId (chats (fst r1)) = true
  /\ (map_has chatId (chats st) = true -> fst r1 = st)
  /\ List.length (chats (fst r1)) <= S (List.length (chats st))
  /\ fst r2 = fst r1.
Proof.
  intros HA HB chatId r1 r2. subst chatId r1 r2.
  destruct (direct_call_effect A B c st HA HB) as (Hid & Hhas & Hsame & Hlen).
  destruct (direct_calls_existing A B cs _ HA HB Hhas) as [Hst Hids].
  repeat split; auto.
  - apply getChatId_comm.
  - now rewrite started_ids_app, Hid, Hids.
Qed.

(** Bob asks for the chat with alice, then alice asks for the chat with bob:
    both replies carry the id of the chat that is already there. *)
Lemma direct_chat_order_independent_idempotent_witness :
  started_ids
    (snd (direct_call "u1" "u2" (mkDirectCall false (env_at 9 "x9") "s2")
            (store demo))
     ++ snd (direct_calls "u1" "u2"
               [mkDirectCall true (env_at 10 "x10") "s1"]
               (store demo)))
  = ["u1-u2"; "u1-u2"]%string.
Proof.
  pose proof (direct_chat_order_independent_idempotent "u1" "u2"
                (mkDirectCall false (env_at 9 "x9") "s2")
                [mkDirectCall true (env_at 10 "x10") "s1"] (store demo)) as H.
  cbv zeta in H.
  destruct H as (_ & Hids & _); [discriminate | discriminate |].
  exact Hids.
Defined.

(** C10: a user who starts a chat with their own id is not turned away: the
    reply carries the chat id [uid + '-' + uid] and the participants
    [[uid, uid]], the chat is registered afterwards, and when it was not
    registered before it is stored as a private chat with those two
    participants and an empty message array. *)
Theorem start_chat_with_self (e : Env) (socket uid : string) (st : Store) :
  uid <> EmptyString ->
  let chatId := String.append uid (String.append "-" uid) in
  let r := on_start_chat e socket (Some uid) (Some uid) st in
  getChatId uid uid = chatId
  /\ (exists name online history rest,
        snd r =
        (to_socket socket,
         chat_started
           (ChatInfo.mk chatId name private [uid; uid] online) history)
        :: rest)
  /\ map_has chatId (chats (fst r)) = true
  /\ (map_has chatId (chats st) = false ->
      map_get chatId (chats (fst r)) =
        Some (Chat.mk [uid; uid] private None (Date_now e) None)
      /\ map_get chatId (messages (fst r)) = Some []).
Proof.
  intros Hu chatId r. subst chatId r.
  pose proof (getChatId_self uid) as Hid.
  split; [assumption|].
  unfold on_start_chat. apply truthy_str_true in Hu. rewrite Hu.
  cbn [negb orb]. rewrite Hid.
  set (cid := String.append uid (String.append "-" uid)).
  destruct (map_has cid (chats st)) eqn:Hhas; cbn [negb fst snd].
  - split; [|split]; [| assumption | discriminate].
    do 4 eexists. reflexivity.
  - split; [|split]; [| | intros _; split].
    + do 4 eexists. reflexivity.
    + cbn [chats]. apply map_has_set_same.
    + cbn [chats]. apply map_get_set_same.
    + cbn [messages]. apply map_get_set_same.
Qed.

(** Mallory starts a chat with herself. *)
Lemma start_chat_with_self_witness :
  map_get "u3-u3" (chats (fst (on_start_chat (env_at 9 "x9") "s3"
                                 (Some "u3"%string) (Some "u3"%string)
                                 (store demo))))
  = Some (Chat.mk ["u3"; "u3"]%string private None 9 None).
Proof.
  pose proof (start_chat_with_self (env_at 9 "x9") "s3" "u3" (store demo)) as H.
  cbv zeta in H.
  destruct H as (_ & _ & _ & Hnew); [discriminate|].
  destruct Hnew as [Hchat _]; [reflexivity|].
  exact Hchat.
Defined.

Lemma map_get_In {V : Type} (k : string) (v : V) (m : list (string * V)) :
  map_get k m = Some v -> In (k, v) m.
Proof.
  induction m as [|[k' v'] m IH]; simpl; [discriminate|].
  destruct (String.eqb_spec k k') as [->|Hne].
  - intros [= ->]. now left.
  - intros H. right. now apply IH.
Qed.

(** The executable check implies the invariant. *)
Lemma store_okb_sound (st : Store) : store_okb st = true -> store_ok st.
Proof.
  unfold store_okb. rewrite !andb_true_iff, !forallb_forall.
  intros [[Hids Hsock] Hlogs]. constructor.
  - intros id Hhas. apply truthy_str_true, Hids. now apply map_has_In.
  - intros id user Hget. apply map_get_In in Hget.
    apply truthy_str_true. exact (Hsock _ Hget).
  - intros cid Hhas. apply Hlogs. now apply map_has_In.
Qed.

(** ** Fan-out *)

(** With every stored socket id non-empty, the guard of the fan-out loops is
    the [online] flag of the participant. *)
Lemma deliverable_online (us : JSMap User.t) (p : string) :
  (forall id user, map_get id us = Some user ->
                   User.socketId user <> EmptyString) ->
  deliverable us p = online_of us p.
Proof.
  intros Hs. unfold deliverable, online_of.
  destruct (map_get p us) as [u|] eqn:E; [|reflexivity].
  apply Hs in E. apply truthy_str_true in E. rewrite E. apply andb_true_r.
Qed.

Lemma filter_deliverable_online (us : JSMap User.t) (l : list string) :
  (forall id user, map_get id us = Some user ->
                   User.socketId user <> EmptyString) ->
  filter (deliverable us) l = filter (online_of us) l.
Proof.
  intros Hs. apply filter_ext. intros p. now apply deliverable_online.
Qed.

(** ** ['send-message'] *)

(** C2: in a state of the server, a valid ['send-message'] (sender identified
    and a participant of the registered chat, text or file present) emits
    one ['new-message']
    per participant of the chat whose [online] flag is set, addressed to that
    participant's socket and tagged [sent = (participant === sender)]; the
    sender is not left out, and nothing is emitted for anyone else. *)
Theorem send_message_fanout
    (e : Env) (socket cur cid : string) (text : option string)
    (file : option FileInfo.t) (st : Store) (chat : Chat.t) :
  cur <> EmptyString -> cid <> EmptyString ->
  JS.truthy text = true \/ file <> None ->
  map_get cid (chats st) = Some chat ->
  In cur (Chat.participants chat) ->
  store_ok st ->
  let message :=
    Message.mk (generateId e) cid cur
      (JS.or_else (username_of (users st) cur) "Unknown")
      (JS.or_else text "") file (Date_now e) false in
  let copy p :=
    (to_socket (socket_of (users st) p),
     new_message cid (view message (String.eqb p cur))) in
  let out := snd (on_send_message e socket (Some cur) (Some cid) text file st) in
  out = map copy (filter (online_of (users st)) (Chat.participants chat))
  /\ (forall x, In x out <->
                exists p, In p (Chat.participants chat)
                          /\ online_of (users st) p = true /\ x = copy p)
  /\ (online_of (users st) cur = true ->
      In (to_socket (socket_of (users st) cur), new_message cid (view message true))
         out).
Proof.
  intros Hcur Hcid Hbody Hchat Hin Hok message copy out.
  pose proof (ok_sockets st Hok) as Hsock.
  assert (Hout : out = map copy (filter (online_of (users st))
                                   (Chat.participants chat))).
  { subst out. unfold on_send_message.
    apply truthy_str_true in Hcur. apply truthy_str_true in Hcid.
    rewrite Hcur, Hcid. cbn [negb orb].
    assert (Hb : negb (JS.truthy text)
                 && negb (match file with Some _ => true | None => false end)
                 = false).
    { destruct Hbody as [Ht|Hf]; [now rewrite Ht|].
      destruct file; [apply andb_false_r | congruence]. }
    rewrite Hb, Hchat.
    apply includes_In in Hin. rewrite Hin. cbn [negb snd users].
    rewrite flat_map_guard. now rewrite filter_deliverable_online. }
  assert (Hiff : forall x, In x out <->
                 exists p, In p (Chat.participants chat)
                           /\ online_of (users st) p = true /\ x = copy p).
  { intros x. rewrite Hout, in_map_iff. split.
    - intros [p [Hx Hp]]. apply filter_In in Hp. exists p. intuition.
    - intros (p & Hp & Hon & Hx). exists p. rewrite filter_In. intuition. }
  repeat split; try assumption; try apply Hiff.
  intros Hon. apply Hiff. exists cur. repeat split; try assumption.
  subst copy. cbv beta. now rewrite String.eqb_refl.
Qed.

(** Bob answers in the chat with alice: one copy each, bob's tagged [sent]. *)
Lemma send_message_fanout_witness :
  snd (on_send_message (env_at 7 "m7") "s2" (Some "u2"%string)
         (Some "u1-u2"%string) (Some "hi"%string) None (store demo))
  = [ (to_socket "s1",
       new_message "u1-u2"
         (MsgView.mk "m7" "hi" None "u2" "bob" 7 false));
      (to_socket "s2",
       new_message "u1-u2"
         (MsgView.mk "m7" "hi" None "u2" "bob" 7 true)) ].
Proof.
  pose proof (send_message_fanout (env_at 7 "m7") "s2" "u2" "u1-u2"
                (Some "hi"%string) None (store demo)
                (Chat.mk ["u1"; "u2"]%string private None 4 None)) as H.
  cbv zeta in H.
  destruct H as (Hout & _).
  - discriminate.
  - discriminate.
  - left. reflexivity.
  - reflexivity.
  - simpl. auto.
  - apply store_okb_sound. reflexivity.
  - exact Hout.
Defined.

(** ['send-message'] from a user who is not a participant of the chat does
    nothing. *)
Lemma send_message_requires_membership
    (e : Env) (socket cur cid : string) (text : option string)
    (file : option FileInfo.t) (st : Store) (chat : Chat.t) :
  map_get cid (chats st) = Some chat ->
  ~ In cur (Chat.participants chat) ->
  on_send_message e socket (Some cur) (Some cid) text file st = (st, []).
Proof.
  intros Hchat Hout. unfold on_send_message. rewrite Hchat.
  destruct (JS.includes (Chat.participants chat) cur) eqn:Hinc.
  - apply includes_In in Hinc. contradiction.
  - cbn [negb].
    now destruct (negb (JS.truthy_str cur) || negb (JS.truthy_str cid)),
      (negb (JS.truthy text)
       && negb (match file with Some _ => true | None => false end)).
Qed.

(** C5 (as amended): ['send-message'] needs a text or a file.  With neither
    it leaves the registries alone and emits nothing; whenever it changes the
    registries, the change is one message appended to one chat's array, and
    that message has a non-empty text or a file (it may have both). *)
Theorem send_message_needs_text_or_file
    (e : Env) (socket : string) (currentUserId chatId text : option string)
    (file : option FileInfo.t) (st : Store) :
  let r := on_send_message e socket currentUserId chatId text file st in
  (JS.truthy text = false -> file = None -> r = (st, []))
  /\ (r = (st, [])
      \/ exists cid log m,
          map_get cid (messages st) = log
          /\ fst r =
             mkStore (users st)
               (map_set cid
                  (match log with Some l => l | None => [] end ++ [m])
                  (messages st))
               (chats st)
          /\ Message.text m = JS.or_else text ""
          /\ Message.file m = file
          /\ (Message.text m <> EmptyString \/ Message.file m <> None)).
Proof.
  cbv zeta. unfold on_send_message. split.
  - intros Ht ->. rewrite Ht. cbn [negb andb].
    destruct currentUserId as [cur|], chatId as [cid|]; try reflexivity.
    now destruct (negb (JS.truthy_str cur) || negb (JS.truthy_str cid)).
  - destruct currentUserId as [cur|], chatId as [cid|]; auto.
    destruct (negb (JS.truthy_str cur) || negb (JS.truthy_str cid)); auto.
    destruct (negb (JS.truthy text)
              && negb (match file with Some _ => true | None => false end))
      eqn:Hbody; auto.
    destruct (map_get cid (chats st)) as [chat|]; auto.
    destruct (negb (JS.includes (Chat.participants chat) cur)); auto.
    right. eexists cid, _, _. cbn [fst Message.text Message.file].
    repeat split.
    apply andb_false_iff in Hbody. rewrite !negb_false_iff in Hbody.
    destruct Hbody as [Ht|Hf].
    + left. destruct text as [t|]; [|discriminate].
      simpl in Ht |- *. rewrite Ht. now apply truthy_str_true.
    + right. now destruct file.
Qed.

(** C5 (the claim as stated fails): alice sends a caption together with a
    file, and the stored message carries both. *)
Lemma message_with_text_and_file :
  exists m,
    map_get "u1-u2"
      (messages (fst (on_send_message (env_at 7 "m7") "s1" (Some "u1"%string)
                        (Some "u1-u2"%string) (Some "look"%string)
                        (Some photo) (store demo))))
    = Some (match map_get "u1-u2" (messages (store demo)) with
            | Some l => l
            | None => []
            end ++ [m])
    /\ Message.text m = "look"%string
    /\ Message.file m = Some photo.
Proof. eexists. repeat split. Qed.

(** ** ['typing'] *)

(** ['typing'] never changes the registries. *)
Lemma typing_keeps_store (socket : string) (currentUserId chatId : option string)
    (isTyping : bool) (st : Store) :
  fst (on_typing socket currentUserId chatId isTyping st) = st.
Proof.
  unfold on_typing.
  destruct currentUserId as [cur|], chatId as [cid|]; try reflexivity.
  destruct (negb (JS.truthy_str cur) || negb (JS.truthy_str cid));
    [reflexivity|].
  now destruct (map_get cid (chats st)).
Qed.

(** The handler only asks that the chat is registered: a caller who is not
    one of its participants reaches every participant that can be
    delivered to. *)
Lemma typing_from_outside
    (socket cur cid : string) (isTyping : bool) (st : Store) (chat : Chat.t) :
  cur <> EmptyString -> cid <> EmptyString ->
  map_get cid (chats st) = Some chat ->
  ~ In cur (Chat.participants chat) ->
  snd (on_typing socket (Some cur) (Some cid) isTyping st) =
  map (fun p =>
         (to_socket (socket_of (users st) p),
          user_typing cid cur (username_of (users st) cur) isTyping))
      (filter (deliverable (users st)) (Chat.participants chat)).
Proof.
  intros Hcur Hcid Hchat Hout. unfold on_typing.
  apply truthy_str_true in Hcur. apply truthy_str_true in Hcid.
  rewrite Hcur, Hcid, Hchat. cbn [negb orb snd].
  induction (Chat.participants chat) as [|p l IH]; [reflexivity|].
  cbn [flat_map filter].
  destruct (String.eqb_spec p cur) as [->|Hne].
  - exfalso. apply Hout. now left.
  - cbn [negb]. rewrite IH by (intros H; apply Hout; now right).
    now destruct (deliverable (users st) p).
Qed.

(** C1 (the code departs from the claim on ['typing']): mallory is not a
    participant of the chat between alice and bob, yet her ['typing'] event on
    that chat is delivered to both of them. *)
Theorem typing_from_non_participant_is_delivered :
  map_get "u1-u2" (chats (store demo))
  = Some (Chat.mk ["u1"; "u2"]%string private None 4 None)
  /\ JS.includes ["u1"; "u2"]%string "u3" = false
  /\ on_typing "s3" (Some "u3"%string) (Some "u1-u2"%string) true (store demo)
     = (store demo,
        [ (to_socket "s1",
           user_typing "u1-u2" "u3" (Some "mallory"%string) true);
          (to_socket "s2",
           user_typing "u1-u2" "u3" (Some "mallory"%string) true) ]).
Proof. repeat split. Qed.

(** ** ['get-messages'] *)

(** ['get-messages'] from a user who is not a participant does nothing. *)
Lemma get_messages_requires_membership
    (socket cur cid : string) (st : Store) (chat : Chat.t) :
  map_get cid (chats st) = Some chat ->
  ~ In cur (Chat.participants chat) ->
  on_get_messages socket (Some cur) (Some cid) st = (st, []).
Proof.
  intros Hchat Hout. unfold on_get_messages. rewrite Hchat.
  destruct (JS.includes (Chat.participants chat) cur) eqn:Hinc.
  - apply includes_In in Hinc. contradiction.
  - cbn [negb].
    now destruct (negb (JS.truthy_str cur) || negb (JS.truthy_str cid)).
Qed.

(** ** ['get-users'] *)

(** C8 (the code departs from the claim): after bob's client has gone, alice
    asks for the users; the reply lists bob, with [online = false], next to
    mallory. *)
Theorem get_users_lists_offline_user :
  online_of (users (store demo_bob_gone)) "u2" = false
  /\ on_get_users "s1" (Some "u1"%string) (store demo_bob_gone)
     = (store demo_bob_gone,
        [ (to_socket "s1",
           users_list
             [ UserEntry.mk "u2" (Some "bob"%string) false;
               UserEntry.mk "u3" (Some "mallory"%string) true ]) ]).
Proof. split; reflexivity. Qed.

(** ** ['create-group'] *)

(** C7 (as amended): ['create-group'] with an empty or absent name, or an
    empty or absent [participantIds], changes nothing and emits nothing.
    Otherwise it registers, under the generated id, a group chat named [name]
    whose participants are the array [[creator, ...participantIds]] (so, as a
    set, the creator together with the listed members; a repeated id stays
    repeated) with an empty message array, and emits one ['new-chat'] per
    entry of that array whose user passes the delivery guard, which in a
    state of the server means: whose user is online. *)
Theorem create_group_effect
    (e : Env) (socket cur : string) (name : option string)
    (participantIds : option (list string)) (st : Store) :
  cur <> EmptyString ->
  let r := on_create_group e socket (Some cur) name participantIds st in
  (JS.truthy name = false \/ participantIds = None \/ participantIds = Some []
   -> r = (st, []))
  /\ (forall members,
        JS.truthy name = true -> participantIds = Some members ->
        members <> [] ->
        let allParticipants := cur :: members in
        let info :=
          ChatInfo.mk (generateId e) (JS.or_else name "") group
            allParticipants false in
        fst r =
          mkStore (users st)
            (map_set (generateId e) [] (messages st))
            (map_set (generateId e)
               (Chat.mk allParticipants group name (Date_now e) (Some cur))
               (chats st))
        /\ (forall p, In p allParticipants <-> p = cur \/ In p members)
        /\ snd r =
           map (fun p => (to_socket (socket_of (users st) p), new_chat info))
               (filter (deliverable (users st)) allParticipants)
        /\ (store_ok st ->
            snd r =
            map (fun p => (to_socket (socket_of (users st) p), new_chat info))
                (filter (online_of (users st)) allParticipants))).
Proof.
  intros Hcur. cbv zeta. unfold on_create_group.
  apply truthy_str_true in Hcur. rewrite Hcur. cbn [negb orb]. split.
  - intros [Hn|[->| ->]].
    + rewrite Hn. now destruct participantIds.
    + reflexivity.
    + cbn. now rewrite orb_true_r.
  - intros members Hn -> Hne. rewrite Hn. cbn [negb orb].
    destruct members as [|m ms]; [congruence|].
    cbn [List.length Nat.eqb fst snd users].
    split; [reflexivity|]. split; [|split].
    + intros p. cbn [In]. split; (intros [H|H]; [left; congruence | now right]).
    + now rewrite flat_map_guard.
    + intros Hok. rewrite flat_map_guard.
      now rewrite (filter_deliverable_online _ _ (ok_sockets st Hok)).
Qed.

(** Alice creates the group "Team" with bob and mallory. *)
Lemma create_group_effect_witness :
  map_get "g7"
    (chats (fst (on_create_group (env_at 7 "g7") "s1" (Some "u1"%string)
                   (Some "Team"%string) (Some ["u2"; "u3"]%string)
                   (store demo))))
  = Some (Chat.mk ["u1"; "u2"; "u3"]%string group (Some "Team"%string) 7
            (Some "u1"%string)).
Proof.
  pose proof (create_group_effect (env_at 7 "g7") "s1" "u1"
                (Some "Team"%string) (Some ["u2"; "u3"]%string)
                (store demo)) as H.
  cbv zeta in H.
  destruct H as (_ & Hmk); [discriminate|].
  destruct (Hmk ["u2"; "u3"]%string) as (Hst & _);
    [reflexivity | reflexivity | discriminate |].
  rewrite Hst. reflexivity.
Defined.

(** C7 (the claim as stated fails): alice creates a group and lists herself
    among the members; the stored participants contain her id twice and she
    is sent the ['new-chat'] notification twice. *)
Lemma create_group_keeps_duplicates :
  map_get "g7"
    (chats (fst (on_create_group (env_at 7 "g7") "s1" (Some "u1"%string)
                   (Some "Team"%string) (Some ["u1"; "u2"]%string)
                   (store demo))))
  = Some (Chat.mk ["u1"; "u1"; "u2"]%string group (Some "Team"%string) 7
            (Some "u1"%string))
  /\ map fst
       (snd (on_create_group (env_at 7 "g7") "s1" (Some "u1"%string)
               (Some "Team"%string) (Some ["u1"; "u2"]%string) (store demo)))
     = [to_socket "s1"; to_socket "s1"; to_socket "s2"].
Proof. split; reflexivity. Qed.

(** ** ['login'] *)

Lemma find_by_username_has (username : option string) (us : JSMap User.t)
    (id : string) :
  find_by_username username us = Some id -> map_has id us = true.
Proof.
  unfold find_by_username.
  destruct (find _ us) as [[k u]|] eqn:E; [|discriminate].
  intros [= <-]. apply find_some in E. destruct E as [Hin _].
  apply map_has_In. unfold keys. now apply (in_map fst) in Hin.
Qed.

(** The id a ['login'] with [username] resolves to. *)
Lemma login_user_id (e : Env) (socket : string) (username : option string)
    (st : Store) :
  fst (fst (on_login e socket username st)) =
  Some (match find_by_username username (users st) with
        | Some found => if JS.truthy_str found then found else generateId e
        | None => generateId e
        end).
Proof.
  unfold on_login.
  destruct (find_by_username username (users st)) as [found|]; [|reflexivity].
  now destruct (JS.truthy_str found).
Qed.

(** After a ['login'] the resolved user is online on the socket that logged
    in. *)
Lemma login_marks_online (e : Env) (socket : string) (username : option string)
    (st : Store) (userId : string) :
  fst (fst (on_login e socket username st)) = Some userId ->
  map_get userId (users (snd (fst (on_login e socket username st)))) <> None
  /\ online_of (users (snd (fst (on_login e socket username st)))) userId = true
  /\ socket_of (users (snd (fst (on_login e socket username st)))) userId
     = socket.
Proof.
  unfold on_login, online_of, socket_of.
  destruct (find_by_username username (users st)) as [found|] eqn:Hf.
  - destruct (JS.truthy_str found).
    + cbn [fst snd users]. intros [= <-].
      rewrite map_get_mutate, String.eqb_refl.
      apply find_by_username_has in Hf. unfold map_has in Hf.
      destruct (map_get found (users st)); [|discriminate].
      cbn. repeat split. discriminate.
    + cbn [fst snd users]. intros [= <-]. rewrite map_get_set_same.
      cbn. repeat split. discriminate.
  - cbn [fst snd users]. intros [= <-]. rewrite map_get_set_same.
    cbn. repeat split. discriminate.
Qed.

Lemma login_emits (e : Env) (socket : string) (username : option string)
    (st : Store) (userId : string) :
  fst (fst (on_login e socket username st)) = Some userId ->
  exists userChats,
    snd (on_login e socket username st) =
    [ (to_socket socket, login_success userId username userChats);
      (broadcast_except socket, user_online userId username) ].
Proof.
  unfold on_login.
  destruct (find_by_username username (users st)) as [found|].
  - destruct (JS.truthy_str found); cbn [fst snd]; intros [= <-];
      eexists; reflexivity.
  - cbn [fst snd]. intros [= <-]. eexists; reflexivity.
Qed.

(** C9 (as amended): a ['login'] on a session that is already identified is
    not ignored.  It is handled exactly as on an anonymous session: the name
    is resolved to a user id (the id of the existing user with that name, or
    a generated one), the session is bound to that id, the user is marked
    online on this socket, the caller gets ['login-success'] and the other
    sockets get ['user-online']. *)
Theorem login_while_identified_rebinds
    (sv : Server) (socket cur : string) (e : Env) (username : option string) :
  map_get socket (sessions sv) = Some (Some cur) ->
  let r := step sv (received socket e (login username)) in
  let userId :=
    match find_by_username username (users (store sv)) with
    | Some found => if JS.truthy_str found then found else generateId e
    | None => generateId e
    end in
  (forall sv0, store sv0 = store sv ->
               map_get socket (sessions sv0) = Some None ->
               let r0 := step sv0 (received socket e (login username)) in
               store (fst r0) = store (fst r) /\ snd r0 = snd r
               /\ map_get socket (sessions (fst r0))
                  = map_get socket (sessions (fst r)))
  /\ map_get socket (sessions (fst r)) = Some (Some userId)
  /\ online_of (users (store (fst r))) userId = true
  /\ socket_of (users (store (fst r))) userId = socket
  /\ exists userChats,
       snd r = [ (to_socket socket, login_success userId username userChats);
                 (broadcast_except socket, user_online userId username) ].
Proof.
  intros Hsess. cbv zeta. cbn [step handle]. rewrite Hsess.
  pose proof (login_user_id e socket username (store sv)) as Hid.
  pose proof (login_marks_online e socket username (store sv) _ Hid)
    as (_ & Hon & Hsock).
  pose proof (login_emits e socket username (store sv) _ Hid) as Hout.
  destruct (on_login e socket username (store sv)) as [[cur' st'] out] eqn:E.
  cbn [fst snd store sessions] in *. subst cur'.
  split; [|split; [|split; [|split]]]; try assumption.
  - intros sv0 Hst Hs0. rewrite Hs0, Hst, E. cbn [fst snd store sessions].
    rewrite !map_get_set_same. auto.
  - apply map_get_set_same.
Qed.

(** Alice's session logs in as bob and is bound to bob's id. *)
Lemma login_while_identified_rebinds_witness :
  map_get "s1"
    (sessions (fst (step demo (received "s1" (env_at 7 "u7")
                                 (login (Some "bob"%string))))))
  = Some (Some "u2"%string).
Proof.
  pose proof (login_while_identified_rebinds demo "s1" "u1" (env_at 7 "u7")
                (Some "bob"%string)) as H.
  cbv zeta in H.
  destruct H as (_ & Hbound & _); [reflexivity|].
  exact Hbound.
Defined.

(** C9 (the claim as stated fails): alice's session logs in again under a new
    name; the session is bound to another user id, a user is added to the
    registry, and two events are emitted. *)
Lemma login_while_identified_is_not_ignored :
  map_get "s1" (sessions demo) = Some (Some "u1"%string)
  /\ map_get "s1"
       (sessions (fst (step demo (received "s1" (env_at 7 "u7")
                                    (login (Some "zed"%string))))))
     = Some (Some "u7"%string)
  /\ map_has "u7" (users (store demo)) = false
  /\ map_has "u7"
       (users (store (fst (step demo (received "s1" (env_at 7 "u7")
                                        (login (Some "zed"%string)))))))
     = true
  /\ snd (step demo (received "s1" (env_at 7 "u7")
                       (login (Some "zed"%string))))
     = [ (to_socket "s1", login_success "u7" (Some "zed"%string) []);
         (broadcast_except "s1", user_online "u7" (Some "zed"%string)) ].
Proof. repeat split. Qed.

(** ** What the handlers do to the [users] map *)

Ltac break_match :=
  match goal with
  | |- context [match ?x with _ => _ end] => destruct x eqn:?
  end.

Ltac by_cases := repeat break_match; cbn [fst snd users messages chats].

Lemma strict_eq_refl (a : option string) : JS.strict_eq a a = true.
Proof. destruct a; simpl; [apply String.eqb_refl | reflexivity]. Qed.

Lemma find_by_username_mutate (n : option string) (k : string)
    (f : User.t -> User.t) (us : JSMap User.t) :
  (forall u, User.username (f u) = User.username u) ->
  find_by_username n (map_mutate k f us) = find_by_username n us.
Proof.
  intros Hf. unfold find_by_username.
  induction us as [|[k0 u0] us IH]; simpl; [reflexivity|].
  destruct (String.eqb k k0); simpl.
  - rewrite Hf. now destruct (JS.strict_eq (User.username u0) n).
  - destruct (JS.strict_eq (User.username u0) n); [reflexivity | exact IH].
Qed.

Lemma find_by_username_app (n : option string) (us l : JSMap User.t)
    (id : string) :
  find_by_username n us = Some id -> find_by_username n (us ++ l) = Some id.
Proof.
  unfold find_by_username.
  induction us as [|[k0 u0] us IH]; simpl; [discriminate|].
  destruct (JS.strict_eq (User.username u0) n); [auto | exact IH].
Qed.

Lemma find_by_username_new (n : option string) (us : JSMap User.t)
    (k : string) (u : User.t) :
  find_by_username n us = None -> User.username u = n ->
  find_by_username n (us ++ [(k, u)]) = Some k.
Proof.
  unfold find_by_username. intros Hnone Hu.
  induction us as [|[k0 u0] us IH]; simpl in *.
  - now rewrite Hu, strict_eq_refl.
  - destruct (JS.strict_eq (User.username u0) n); [discriminate | auto].
Qed.

Lemma start_chat_users e socket cur target st :
  users (fst (on_start_chat e socket cur target st)) = users st.
Proof. unfold on_start_chat. by_cases; reflexivity. Qed.

Lemma send_message_users e socket cur cid text file st :
  users (fst (on_send_message e socket cur cid text file st)) = users st.
Proof. unfold on_send_message. by_cases; reflexivity. Qed.

Lemma upload_file_store e socket cur cid data fileName fileType st :
  fst (on_upload_file e socket cur cid data fileName fileType st) = st.
Proof. unfold on_upload_file. by_cases; reflexivity. Qed.

Lemma create_group_users e socket cur name ids st :
  users (fst (on_create_group e socket cur name ids st)) = users st.
Proof. unfold on_create_group. by_cases; reflexivity. Qed.

Lemma get_messages_store socket cur cid st :
  fst (on_get_messages socket cur cid st) = st.
Proof. unfold on_get_messages. by_cases; reflexivity. Qed.

Lemma disconnect_logs socket cur st :
  messages (fst (on_disconnect socket cur st)) = messages st
  /\ chats (fst (on_disconnect socket cur st)) = chats st.
Proof. unfold on_disconnect. by_cases; split; reflexivity. Qed.

Lemma login_logs e socket username st :
  messages (snd (fst (on_login e socket username st))) = messages st
  /\ chats (snd (fst (on_login e socket username st))) = chats st.
Proof. unfold on_login. by_cases; split; reflexivity. Qed.

(** A name that resolves to a user keeps resolving to that user, whatever
    event is handled, as long as generated ids are not in use. *)
Lemma handle_preserves_found
    (e : Env) (socket : string) (cur : option string) (ev : ClientEvent)
    (st : Store) (n : option string) (id : string) :
  map_has (generateId e) (users st) = false ->
  find_by_username n (users st) = Some id ->
  find_by_username n (users (snd (fst (handle e socket cur ev st)))) = Some id.
Proof.
  intros Hfresh Hfound. destruct ev; cbn [handle fst snd].
  - unfold on_login.
    destruct (find_by_username username (users st)) as [found|];
      [destruct (JS.truthy_str found)|]; cbn [fst snd users].
    + now rewrite find_by_username_mutate.
    + rewrite map_set_fresh by assumption. now apply find_by_username_app.
    + rewrite map_set_fresh by assumption. now apply find_by_username_app.
  - assumption.
  - now rewrite start_chat_users.
  - now rewrite send_message_users.
  - now rewrite upload_file_store.
  - now rewrite typing_keeps_store.
  - now rewrite create_group_users.
  - now rewrite get_messages_store.
  - unfold on_disconnect. by_cases; try assumption.
    now rewrite find_by_username_mutate.
Qed.

Lemma andb4 (a b c d : bool) :
  a && b && c && d = true -> a = true /\ b = true /\ c = true /\ d = true.
Proof. destruct a, b, c, d; simpl; intuition discriminate. Qed.

Lemma step_preserves_found (sv : Server) (i : Input) (n : option string)
    (id : string) :
  input_ok sv i = true ->
  find_by_username n (users (store sv)) = Some id ->
  find_by_username n (users (store (fst (step sv i)))) = Some id.
Proof.
  intros Hok Hfound. destruct i as [socket|socket e ev]; [assumption|].
  cbn [step]. destruct (map_get socket (sessions sv)) as [cur|]; [|assumption].
  cbn [input_ok] in Hok. apply andb4 in Hok.
  destruct Hok as (_ & _ & Hfresh & _). apply negb_true_iff in Hfresh.
  pose proof (handle_preserves_found e socket cur ev _ n id Hfresh Hfound) as H.
  destruct (handle e socket cur ev (store sv)) as [[cur' st'] out].
  exact H.
Qed.

Lemma run_preserves_found (tr : list Input) (sv : Server) (n : option string)
    (id : string) :
  trace_ok sv tr = true ->
  find_by_username n (users (store sv)) = Some id ->
  find_by_username n (users (store (fst (run sv tr)))) = Some id.
Proof.
  revert sv. induction tr as [|i tr IH]; intros sv Hok Hfound; [assumption|].
  cbn [trace_ok] in Hok. apply andb_true_iff in Hok. destruct Hok as [Hi Htr].
  cbn [run]. pose proof (step_preserves_found sv i n id Hi Hfound) as H1.
  destruct (step sv i) as [sv1 out1]. cbn [fst] in *.
  specialize (IH sv1 Htr H1).
  destruct (run sv1 tr) as [sv2 out2]. exact IH.
Qed.

(** After a ['login'] with [username], that name resolves to the id the login
    returned. *)
Lemma login_then_found (e : Env) (socket : string) (username : option string)
    (st : Store) :
  store_ok st -> generateId e <> EmptyString ->
  map_has (generateId e) (users st) = false ->
  exists id,
    id <> EmptyString
    /\ fst (fst (on_login e socket username st)) = Some id
    /\ find_by_username username
         (users (snd (fst (on_login e socket username st)))) = Some id.
Proof.
  intros Hok Hgen Hfresh. unfold on_login.
  destruct (find_by_username username (users st)) as [found|] eqn:Hf.
  - assert (Hne : found <> EmptyString).
    { apply (ok_user_ids st Hok). now apply find_by_username_has in Hf. }
    apply truthy_str_true in Hne. rewrite Hne. cbn [fst snd users].
    exists found. repeat split.
    + now apply truthy_str_true.
    + now rewrite find_by_username_mutate.
  - cbn [fst snd users]. exists (generateId e). repeat split; [assumption|].
    rewrite map_set_fresh by assumption.
    now apply find_by_username_new.
Qed.

(** A ['login'] whose name resolves to an existing, non-empty id reuses it. *)
Lemma login_existing (e : Env) (socket : string) (username : option string)
    (st : Store) (id : string) :
  find_by_username username (users st) = Some id -> id <> EmptyString ->
  fst (fst (on_login e socket username st)) = Some id
  /\ keys (users (snd (fst (on_login e socket username st)))) = keys (users st)
  /\ socket_of (users (snd (fst (on_login e socket username st)))) id = socket
  /\ online_of (users (snd (fst (on_login e socket username st)))) id = true.
Proof.
  intros Hf Hne.
  assert (Hid : fst (fst (on_login e socket username st)) = Some id).
  { rewrite login_user_id, Hf. apply truthy_str_true in Hne. now rewrite Hne. }
  destruct (login_marks_online e socket username st id Hid) as (_ & Hon & Hs).
  repeat split; try assumption.
  unfold on_login. rewrite Hf. apply truthy_str_true in Hne. rewrite Hne.
  cbn [fst snd users]. apply keys_mutate.
Qed.

(** C6: in a state of the server, with [generateId()] returning an unused
    non-empty id, ['login'] resolves a display name to a stable user id.
    If a user with that name exists, the login returns that user's id, the
    registry keeps the same ids (no duplicate user), and the user is online
    on the new socket.  If none exists, one user is added under the generated
    id.  A later login with the same name, from any socket and after any
    events in between, returns the same id, again without adding a user. *)
Theorem login_resolves_stable_id
    (e1 : Env) (socket1 : string) (username : option string) (st : Store) :
  store_ok st -> generateId e1 <> EmptyString ->
  map_has (generateId e1) (users st) = false ->
  let r1 := on_login e1 socket1 username st in
  let st1 := snd (fst r1) in
  (forall id, find_by_username username (users st) = Some id ->
              fst (fst r1) = Some id
              /\ keys (users st1) = keys (users st)
              /\ socket_of (users st1) id = socket1
              /\ online_of (users st1) id = true)
  /\ (find_by_username username (users st) = None ->
      fst (fst r1) = Some (generateId e1)
      /\ users st1 =
         users st
         ++ [(generateId e1, User.mk username socket1 true (Date_now e1))])
  /\ (forall sess tr e2 socket2,
        trace_ok (mkServer st1 sess) tr = true ->
        let st2 := store (fst (run (mkServer st1 sess) tr)) in
        let r2 := on_login e2 socket2 username st2 in
        fst (fst r2) = fst (fst r1)
        /\ keys (users (snd (fst r2))) = keys (users st2)
        /\ (forall id, fst (fst r2) = Some id ->
                       socket_of (users (snd (fst r2))) id = socket2
                       /\ online_of (users (snd (fst r2))) id = true)).
Proof.
  intros Hok Hgen Hfresh r1 st1. subst st1 r1. split; [|split].
  - intros id Hf. apply login_existing; [assumption|].
    apply (ok_user_ids st Hok). now apply find_by_username_has in Hf.
  - intros Hnone. unfold on_login. rewrite Hnone. cbn [fst snd users].
    split; [reflexivity|]. now apply map_set_fresh.
  - intros sess tr e2 socket2 Htr st2 r2. subst st2 r2.
    destruct (login_then_found e1 socket1 username st Hok Hgen Hfresh)
      as (id & Hne & Hid & Hfound).
    pose proof (run_preserves_found tr (mkServer _ sess) username id Htr Hfound)
      as Hlater.
    destruct (login_existing e2 socket2 username _ id Hlater Hne)
      as (Hid2 & Hkeys & Hsock & Hon).
    rewrite Hid, Hid2. split; [reflexivity|]. split; [assumption|].
    intros id' [= <-]. split; assumption.
Qed.

(** Bob comes back on a new socket and gets his id again. *)
Lemma login_resolves_stable_id_witness :
  fst (fst (on_login (env_at 8 "u8") "s9" (Some "bob"%string)
              (store demo_bob_gone)))
  = Some "u2"%string.
Proof.
  pose proof (login_resolves_stable_id (env_at 8 "u8") "s9"
                (Some "bob"%string) (store demo_bob_gone)) as H.
  cbv zeta in H.
  destruct H as (Hreuse & _).
  - apply store_okb_sound. reflexivity.
  - discriminate.
  - reflexivity.
  - destruct (Hreuse "u2"%string) as (Hid & _); [reflexivity|].
    exact Hid.
Defined.

(** ** The registries stay well-formed *)

Lemma store_ok_set_chat (st : Store) (cid : string) (l : list Message.t)
    (c : Chat.t) :
  store_ok st ->
  store_ok (mkStore (users st) (map_set cid l (messages st))
              (map_set cid c (chats st))).
Proof.
  intros [Hids Hsock Hlogs]. constructor; cbn [users messages chats]; auto.
  intros cid'. rewrite !map_has_set.
  destruct (String.eqb cid' cid); [reflexivity | apply Hlogs].
Qed.

Lemma store_ok_append (st : Store) (cid : string) (l : list Message.t) :
  store_ok st -> map_has cid (chats st) = true ->
  store_ok (mkStore (users st) (map_set cid l (messages st)) (chats st)).
Proof.
  intros [Hids Hsock Hlogs] Hchat.
  constructor; cbn [users messages chats]; auto.
  intros cid'. rewrite map_has_set.
  destruct (String.eqb_spec cid' cid) as [->|]; [auto | apply Hlogs].
Qed.

Lemma store_ok_mutate_user (st : Store) (k : string) (f : User.t -> User.t) :
  store_ok st ->
  (forall u, User.socketId u <> EmptyString ->
             User.socketId (f u) <> EmptyString) ->
  store_ok (mkStore (map_mutate k f (users st)) (messages st) (chats st)).
Proof.
  intros [Hids Hsock Hlogs] Hf.
  constructor; cbn [users messages chats]; auto.
  - intros id. rewrite map_has_mutate. apply Hids.
  - intros id user. rewrite map_get_mutate.
    destruct (String.eqb id k); [|apply Hsock].
    destruct (map_get k (users st)) as [u0|] eqn:E; [|discriminate].
    intros [= <-]. apply Hf. exact (Hsock _ _ E).
Qed.

Lemma store_ok_new_user (st : Store) (k : string) (u : User.t) :
  store_ok st -> k <> EmptyString -> User.socketId u <> EmptyString ->
  store_ok (mkStore (map_set k u (users st)) (messages st) (chats st)).
Proof.
  intros [Hids Hsock Hlogs] Hk Hu.
  constructor; cbn [users messages chats]; auto.
  - intros id. rewrite map_has_set.
    destruct (String.eqb_spec id k) as [->|]; [auto | apply Hids].
  - intros id user.
    destruct (String.eqb_spec id k) as [->|Hne].
    + rewrite map_get_set_same. now intros [= <-].
    + rewrite map_get_set_other by assumption. apply Hsock.
Qed.

Lemma store_eta (st : Store) :
  mkStore (users st) (messages st) (chats st) = st.
Proof. now destruct st. Qed.

(** Every handler keeps the registries well-formed. *)
Lemma handle_store_ok
    (e : Env) (socket : string) (cur : option string) (ev : ClientEvent)
    (st : Store) :
  store_ok st -> socket <> EmptyString -> generateId e <> EmptyString ->
  store_ok (snd (fst (handle e socket cur ev st))).
Proof.
  intros Hok Hsk Hgen. destruct ev; cbn [handle fst snd].
  - unfold on_login.
    destruct (find_by_username username (users st)) as [found|];
      [destruct (JS.truthy_str found)|]; cbn [fst snd].
    + now apply store_ok_mutate_user.
    + now apply store_ok_new_user.
    + now apply store_ok_new_user.
  - assumption.
  - unfold on_start_chat. by_cases; try assumption;
      now apply store_ok_set_chat.
  - unfold on_send_message. by_cases; try assumption;
      (apply store_ok_append; [assumption|]); unfold map_has;
      match goal with
      | H : map_get _ (chats st) = Some _ |- _ => now rewrite H
      end.
  - now rewrite upload_file_store.
  - now rewrite typing_keeps_store.
  - unfold on_create_group. by_cases; try assumption;
      now apply store_ok_set_chat.
  - now rewrite get_messages_store.
  - unfold on_disconnect. by_cases; try assumption;
      now apply store_ok_mutate_user.
Qed.

Lemma step_store_ok (sv : Server) (i : Input) :
  store_ok (store sv) -> input_ok sv i = true ->
  store_ok (store (fst (step sv i))).
Proof.
  intros Hok Hi. destruct i as [socket|socket e ev]; [assumption|].
  cbn [step]. destruct (map_get socket (sessions sv)) as [cur|]; [|assumption].
  cbn [input_ok] in Hi. apply andb4 in Hi. destruct Hi as (Hsk & Hgen & _ & _).
  apply truthy_str_true in Hsk. apply truthy_str_true in Hgen.
  pose proof (handle_store_ok e socket cur ev _ Hok Hsk Hgen) as H.
  destruct (handle e socket cur ev (store sv)) as [[cur' st'] out].
  exact H.
Qed.

Lemma run_store_ok (tr : list Input) (sv : Server) :
  store_ok (store sv) -> trace_ok sv tr = true ->
  store_ok (store (fst (run sv tr))).
Proof.
  revert sv. induction tr as [|i tr IH]; intros sv Hok Htr; [assumption|].
  cbn [trace_ok] in Htr. apply andb_true_iff in Htr. destruct Htr as [Hi Htr].
  cbn [run]. pose proof (step_store_ok sv i Hok Hi) as H1.
  destruct (step sv i) as [sv1 out1]. cbn [fst] in *.
  specialize (IH sv1 H1 Htr).
  destruct (run sv1 tr) as [sv2 out2]. exact IH.
Qed.

(** Every state the server reaches from its start is well-formed. *)
Lemma reachable_store_ok (tr : list Input) :
  trace_ok initial tr = true -> store_ok (store (fst (run initial tr))).
Proof.
  apply run_store_ok. constructor; cbn; intros; discriminate.
Qed.

(** ** The message arrays only grow at the end *)

Ltac keep_log := exists []; rewrite app_nil_r; assumption.

(** Registering a chat that was not registered leaves every existing message
    array as it is. *)
Lemma log_kept_on_new_chat (st : Store) (k cid : string)
    (l0 l : list Message.t) :
  store_ok st -> map_has k (chats st) = false ->
  map_get cid (messages st) = Some l ->
  map_get cid (map_set k l0 (messages st)) = Some l.
Proof.
  intros Hok Hnew Hlog. rewrite map_get_set_other; [assumption|].
  intros ->. pose proof (ok_logs st Hok k) as H.
  unfold map_has in H at 1. rewrite Hlog in H. specialize (H eq_refl).
  congruence.
Qed.

Lemma handle_log_prefix
    (e : Env) (socket : string) (cur : option string) (ev : ClientEvent)
    (st : Store) (cid : string) (l : list Message.t) :
  store_ok st -> map_has (generateId e) (chats st) = false ->
  map_get cid (messages st) = Some l ->
  exists later,
    map_get cid (messages (snd (fst (handle e socket cur ev st))))
    = Some (l ++ later).
Proof.
  intros Hok Hfresh Hlog. destruct ev; cbn [handle fst snd].
  - rewrite (proj1 (login_logs e socket username st)). keep_log.
  - keep_log.
  - unfold on_start_chat. by_cases; try keep_log;
      exists []; rewrite app_nil_r;
      apply log_kept_on_new_chat; try assumption;
      match goal with
      | H : negb (map_has _ _) = true |- _ => now apply negb_true_iff in H
      end.
  - unfold on_send_message. by_cases; try keep_log;
      match goal with
      | |- exists _, map_get ?c (map_set ?k _ _) = _ =>
          destruct (String.eqb_spec c k) as [->|Hne];
          [ rewrite map_get_set_same
          | rewrite map_get_set_other by assumption; keep_log ]
      end;
      match goal with
      | H : map_get _ (messages st) = _ |- _ =>
          rewrite Hlog in H; inversion H; subst
      end;
      eexists; reflexivity.
  - rewrite upload_file_store. keep_log.
  - rewrite typing_keeps_store. keep_log.
  - unfold on_create_group. by_cases; try keep_log;
      exists []; rewrite app_nil_r; now apply log_kept_on_new_chat.
  - rewrite get_messages_store. keep_log.
  - rewrite (proj1 (disconnect_logs socket cur st)). keep_log.
Qed.

Lemma step_log_prefix (sv : Server) (i : Input) (cid : string)
    (l : list Message.t) :
  store_ok (store sv) -> input_ok sv i = true ->
  map_get cid (messages (store sv)) = Some l ->
  exists later,
    map_get cid (messages (store (fst (step sv i)))) = Some (l ++ later).
Proof.
  intros Hok Hi Hlog. destruct i as [socket|socket e ev]; [keep_log|].
  cbn [step]. destruct (map_get socket (sessions sv)) as [cur|]; [|keep_log].
  cbn [input_ok] in Hi. apply andb4 in Hi. destruct Hi as (_ & _ & _ & Hfresh).
  apply negb_true_iff in Hfresh.
  pose proof (handle_log_prefix e socket cur ev _ cid l Hok Hfresh Hlog) as H.
  destruct (handle e socket cur ev (store sv)) as [[cur' st'] out].
  exact H.
Qed.

Lemma run_log_prefix (tr : list Input) (sv : Server) (cid : string)
    (l : list Message.t) :
  store_ok (store sv) -> trace_ok sv tr = true ->
  map_get cid (messages (store sv)) = Some l ->
  exists later,
    map_get cid (messages (store (fst (run sv tr)))) = Some (l ++ later).
Proof.
  revert sv l. induction tr as [|i tr IH]; intros sv l Hok Htr Hlog;
    [keep_log|].
  cbn [trace_ok] in Htr. apply andb_true_iff in Htr. destruct Htr as [Hi Htr].
  cbn [run].
  pose proof (step_store_ok sv i Hok Hi) as Hok1.
  destruct (step_log_prefix sv i cid l Hok Hi Hlog) as [l1 H1].
  destruct (step sv i) as [sv1 out1]. cbn [fst] in *.
  destruct (IH sv1 _ Hok1 Htr H1) as [l2 H2].
  destruct (run sv1 tr) as [sv2 out2]. cbn [fst] in *.
  exists (l1 ++ l2). now rewrite app_assoc.
Qed.

(** What a valid ['send-message'] stores: the new message goes to the end of
    the chat's array. *)
Lemma send_message_appends
    (e : Env) (socket cur cid : string) (text : option string)
    (file : option FileInfo.t) (st : Store) (chat : Chat.t)
    (l : list Message.t) :
  cur <> EmptyString -> cid <> EmptyString ->
  JS.truthy text = true \/ file <> None ->
  map_get cid (chats st) = Some chat ->
  In cur (Chat.participants chat) ->
  map_get cid (messages st) = Some l ->
  map_get cid
    (messages (fst (on_send_message e socket (Some cur) (Some cid) text file
                      st)))
  = Some (l ++ [Message.mk (generateId e) cid cur
                  (JS.or_else (username_of (users st) cur) "Unknown")
                  (JS.or_else text "") file (Date_now e) false]).
Proof.
  intros Hcur Hcid Hbody Hchat Hin Hlog. unfold on_send_message.
  apply truthy_str_true in Hcur. apply truthy_str_true in Hcid.
  rewrite Hcur, Hcid. cbn [negb orb].
  assert (Hb : negb (JS.truthy text)
               && negb (match file with Some _ => true | None => false end)
               = false).
  { destruct Hbody as [Ht|Hf]; [now rewrite Ht|].
    destruct file; [apply andb_false_r | congruence]. }
  rewrite Hb, Hchat. apply includes_In in Hin. rewrite Hin, Hlog.
  cbn [negb fst messages]. apply map_get_set_same.
Qed.

(** What ['get-messages'] replies to a participant: the whole array, in
    stored order. *)
Lemma get_messages_reply
    (socket cur cid : string) (st : Store) (chat : Chat.t)
    (l : list Message.t) :
  cur <> EmptyString -> cid <> EmptyString ->
  map_get cid (chats st) = Some chat ->
  In cur (Chat.participants chat) ->
  map_get cid (messages st) = Some l ->
  on_get_messages socket (Some cur) (Some cid) st
  = (st,
     [ (to_socket socket,
        messages_loaded cid
          (map (fun msg => view msg (String.eqb (Message.senderId msg) cur))
               l)) ]).
Proof.
  intros Hcur Hcid Hchat Hin Hlog. unfold on_get_messages.
  apply truthy_str_true in Hcur. apply truthy_str_true in Hcid.
  rewrite Hcur, Hcid, Hchat. apply includes_In in Hin.
  now rewrite Hin, Hlog.
Qed.

(** C4: the message array of a chat only grows at its end, and it is read in
    stored order.  From a state of the server and over any trace of events
    (with [generateId()] returning unused ids), the array of a chat is the
    array it was, followed by what was added since; ['get-messages'] replies
    to a participant with exactly that array in that order; and a valid
    ['send-message'] puts its message after everything already there.  So a
    message appended before another is read before it, and nothing removes or
    reorders messages. *)
Theorem message_log_append_only
    (sv : Server) (tr : list Input) (cid : string) (log : list Message.t) :
  store_ok (store sv) -> trace_ok sv tr = true ->
  map_get cid (messages (store sv)) = Some log ->
  let st' := store (fst (run sv tr)) in
  exists later,
    map_get cid (messages st') = Some (log ++ later)
    /\ (forall socket cur chat,
          cur <> EmptyString -> cid <> EmptyString ->
          map_get cid (chats st') = Some chat ->
          In cur (Chat.participants chat) ->
          on_get_messages socket (Some cur) (Some cid) st'
          = (st',
             [ (to_socket socket,
                messages_loaded cid
                  (map (fun msg =>
                          view msg (String.eqb (Message.senderId msg) cur))
                       (log ++ later))) ]))
    /\ (forall e socket cur text file chat,
          cur <> EmptyString -> cid <> EmptyString ->
          JS.truthy text = true \/ file <> None ->
          map_get cid (chats st') = Some chat ->
          In cur (Chat.participants chat) ->
          map_get cid
            (messages (fst (on_send_message e socket (Some cur) (Some cid)
                              text file st')))
          = Some ((log ++ later)
                  ++ [Message.mk (generateId e) cid cur
                        (JS.or_else (username_of (users st') cur) "Unknown")
                        (JS.or_else text "") file (Date_now e) false])).
Proof.
  intros Hok Htr Hlog st'. subst st'.
  destruct (run_log_prefix tr sv cid log Hok Htr Hlog) as [later Hlater].
  exists later. split; [assumption|]. split.
  - intros socket cur chat Hcur Hcid Hchat Hin.
    now apply (get_messages_reply socket cur cid _ chat).
  - intros e socket cur text file chat Hcur Hcid Hbody Hchat Hin.
    now apply (send_message_appends e socket cur cid text file _ chat).
Qed.

(** After bob's answer and a new group, the chat of alice and bob still
    starts with alice's hello, and bob reads it first. *)
Lemma message_log_append_only_witness :
  exists later,
    map_get "u1-u2" (messages (store (fst (run demo demo_reply))))
    = Some ([hello] ++ later)
    /\ on_get_messages "s2" (Some "u2"%string) (Some "u1-u2"%string)
         (store (fst (run demo demo_reply)))
       = (store (fst (run demo demo_reply)),
          [ (to_socket "s2",
             messages_loaded "u1-u2"
               (map (fun msg =>
                       view msg (String.eqb (Message.senderId msg) "u2"))
                    ([hello] ++ later))) ]).
Proof.
  pose proof (message_log_append_only demo demo_reply "u1-u2" [hello]) as H.
  cbv zeta in H.
  destruct H as (later & Hlog & Hread & _).
  - apply store_okb_sound. reflexivity.
  - reflexivity.
  - reflexivity.
  - exists later. split; [exact Hlog|].
    apply (Hread "s2"%string "u2"%string (Chat.mk ["u1"; "u2"]%string private None 4 None)).
    + discriminate.
    + discriminate.
    + reflexivity.
    + simpl. auto.
Defined.

(** * Further properties of the code *)

(** ** [getChatId] *)

Lemma append_dash_inj (a b c d : string) :
  dash_free a = true -> dash_free c = true ->
  String.append a (String.append "-" b) = String.append c (String.append "-" d) ->
  a = c /\ b = d.
Proof.
  revert c. induction a as [|x a IH]; intros [|y c] Ha Hc H; simpl in *.
  - injection H as H. auto.
  - injection H as Hy _. subst y. discriminate.
  - injection H as Hx _. subst x. discriminate.
  - injection H as Hx H. subst y.
    apply andb_true_iff in Ha, Hc.
    destruct (IH c (proj2 Ha) (proj2 Hc) H) as [-> ->]. auto.
Qed.

Lemma getChatId_pair (a b : string) :
  getChatId a b =
  if String.leb a b then String.append a (String.append "-" b)
  else String.append b (String.append "-" a).
Proof. unfold getChatId. simpl. now destruct (String.leb a b). Qed.

(** X1: on ids without ['-'] (the ids [generateId] builds) the id of a direct
    chat determines the pair of users: two pairs with the same chat id are
    the same pair, possibly in the other order. *)
Theorem getChatId_determines_pair (a b c d : string) :
  dash_free a = true -> dash_free b = true ->
  dash_free c = true -> dash_free d = true ->
  getChatId a b = getChatId c d ->
  (a = c /\ b = d) \/ (a = d /\ b = c).
Proof.
  intros Ha Hb Hc Hd. rewrite !getChatId_pair.
  destruct (String.leb a b), (String.leb c d); intros H;
    apply append_dash_inj in H; try assumption; intuition.
Qed.

(** Alice-and-bob's chat id cannot be the id of another pair. *)
Lemma getChatId_determines_pair_witness :
  ("u2"%string = "u1"%string /\ "u1"%string = "u2"%string)
  \/ ("u2"%string = "u2"%string /\ "u1"%string = "u1"%string).
Proof.
  apply (getChatId_determines_pair "u2" "u1" "u1" "u2"); reflexivity.
Defined.

Lemma dash_free_append_dash (a b : string) :
  dash_free (String.append a (String.append "-" b)) = false.
Proof.
  induction a as [|x a IH]; simpl in *; [reflexivity|].
  rewrite IH. apply andb_false_r.
Qed.

(** X2: the id of a direct chat always contains ['-'], whatever the two ids
    are; so it is never one of the separator-free ids that group chats and
    users get. *)
Theorem getChatId_has_dash (a b : string) : dash_free (getChatId a b) = false.
Proof.
  rewrite getChatId_pair.
  destruct (String.leb a b); apply dash_free_append_dash.
Qed.

(** ** Guards and scoping of the handlers *)

(** X3: on a session that has not logged in, every handler but ['login'] and
    ['get-users'] returns at its guard: registries unchanged, nothing
    emitted, session still anonymous. *)
Theorem anonymous_session_is_inert
    (e : Env) (socket : string) (ev : ClientEvent) (st : Store) :
  acts_when_anonymous ev = false ->
  handle e socket None ev st = (None, st, []).
Proof.
  destruct ev; cbn; try discriminate; intros _; try reflexivity.
  unfold on_upload_file. now destruct chatId.
Qed.

(** An anonymous socket tries to send into alice-and-bob's chat. *)
Lemma anonymous_session_is_inert_witness :
  handle (env_at 9 "m9") "s4" None
    (send_message (Some "u1-u2"%string) (Some "psst"%string) None) (store demo)
  = (None, store demo, []).
Proof. apply anonymous_session_is_inert. reflexivity. Defined.

Lemma deliverable_scoped (us : JSMap User.t) (socket p : string)
    (ev : ServerEvent) :
  deliverable us p = true -> scoped us socket (to_socket (socket_of us p), ev).
Proof.
  unfold deliverable, socket_of, scoped.
  destruct (map_get p us) as [u|] eqn:E; [|discriminate].
  intros H. apply andb_true_iff in H. right. left. exists p, u. tauto.
Qed.

Lemma Forall_flat_map_guard {A B : Type} (P : B -> Prop) (c : A -> bool)
    (g : A -> B) (l : list A) :
  (forall a, c a = true -> P (g a)) ->
  Forall P (flat_map (fun a => if c a then [g a] else []) l).
Proof.
  intros H. rewrite flat_map_guard. apply Forall_forall. intros x Hx.
  apply in_map_iff in Hx. destruct Hx as (a & <- & Ha).
  apply filter_In in Ha. now apply H.
Qed.

Lemma scoped_reply (us : JSMap User.t) (socket : string) (ev : ServerEvent) :
  scoped us socket (to_socket socket, ev).
Proof. now left. Qed.

Lemma start_chat_scoped e socket cur target st :
  Forall (scoped (users st) socket)
    (snd (on_start_chat e socket cur target st)).
Proof.
  unfold on_start_chat. by_cases;
    repeat (apply Forall_cons || apply Forall_nil);
    try apply scoped_reply;
    right; left; do 2 eexists; cbn [users] in *;
    (split; [eassumption | split; [assumption | reflexivity]]).
Qed.

Lemma send_message_scoped e socket cur cid text file st :
  Forall (scoped (users st) socket)
    (snd (on_send_message e socket cur cid text file st)).
Proof.
  unfold on_send_message. by_cases; try apply Forall_nil;
    apply Forall_flat_map_guard; intros p Hp; now apply deliverable_scoped.
Qed.

Lemma typing_scoped socket cur cid isTyping st :
  Forall (scoped (users st) socket)
    (snd (on_typing socket cur cid isTyping st)).
Proof.
  unfold on_typing. by_cases; try apply Forall_nil;
    apply Forall_forall; intros x Hx; apply in_flat_map in Hx;
    destruct Hx as (p & _ & Hx);
    match type of Hx with
    | In _ (if ?c then _ else _) => destruct c; [|contradiction]
    end;
    destruct (deliverable (users st) p) eqn:Hd; [|contradiction];
    destruct Hx as [<-|[]]; now apply deliverable_scoped.
Qed.

Lemma create_group_scoped e socket cur name ids st :
  Forall (scoped (users st) socket)
    (snd (on_create_group e socket cur name ids st)).
Proof.
  unfold on_create_group. by_cases; try apply Forall_nil;
    apply Forall_flat_map_guard; intros p Hp; now apply deliverable_scoped.
Qed.

Lemma upload_file_scoped e socket cur cid data fileName fileType st :
  Forall (scoped (users st) socket)
    (snd (on_upload_file e socket cur cid data fileName fileType st)).
Proof.
  unfold on_upload_file. by_cases;
    repeat (apply Forall_cons || apply Forall_nil); apply scoped_reply.
Qed.

Lemma get_messages_scoped socket cur cid st :
  Forall (scoped (users st) socket) (snd (on_get_messages socket cur cid st)).
Proof.
  unfold on_get_messages. by_cases;
    repeat (apply Forall_cons || apply Forall_nil); apply scoped_reply.
Qed.

Lemma disconnect_scoped socket cur st :
  Forall (scoped (users (fst (on_disconnect socket cur st))) socket)
    (snd (on_disconnect socket cur st)).
Proof.
  unfold on_disconnect. by_cases;
    repeat (apply Forall_cons || apply Forall_nil);
    right; right; (split; [reflexivity|]); do 2 eexists; right; reflexivity.
Qed.

Lemma login_scoped e socket username st :
  Forall (scoped (users (snd (fst (on_login e socket username st)))) socket)
    (snd (on_login e socket username st)).
Proof.
  pose proof (login_user_id e socket username st) as Hid.
  destruct (login_emits e socket username st _ Hid) as [userChats ->].
  repeat (apply Forall_cons || apply Forall_nil).
  - apply scoped_reply.
  - right. right. split; [reflexivity|]. do 2 eexists. left. reflexivity.
Qed.

(** X4: whatever a handler emits goes to the socket the event came from, or
    to the stored socket of a user whose [online] flag is set, or is one of
    the two presence notices (['user-online'], ['user-offline']) broadcast to
    everyone but that socket.  No other event is broadcast and no event is
    addressed to a user who is marked offline. *)
Theorem emits_are_scoped
    (e : Env) (socket : string) (cur : option string) (ev : ClientEvent)
    (st : Store) (x : Emit) :
  In x (snd (handle e socket cur ev st)) ->
  scoped (users (snd (fst (handle e socket cur ev st)))) socket x.
Proof.
  revert x. apply Forall_forall. destruct ev; cbn [handle fst snd].
  - apply login_scoped.
  - repeat (apply Forall_cons || apply Forall_nil). apply scoped_reply.
  - rewrite start_chat_users. apply start_chat_scoped.
  - rewrite send_message_users. apply send_message_scoped.
  - rewrite upload_file_store. apply upload_file_scoped.
  - rewrite typing_keeps_store. apply typing_scoped.
  - rewrite create_group_users. apply create_group_scoped.
  - rewrite get_messages_store. apply get_messages_scoped.
  - apply disconnect_scoped.
Qed.

(** Bob's answer to alice reaches alice's socket because alice is online. *)
Lemma emits_are_scoped_witness :
  scoped (users (store demo)) "s2"
    (to_socket "s1",
     new_message "u1-u2" (MsgView.mk "m7" "hi" None "u2" "bob" 7 false)).
Proof.
  apply (emits_are_scoped (env_at 7 "m7") "s2" (Some "u2"%string)
           (send_message (Some "u1-u2"%string) (Some "hi"%string) None)
           (store demo)).
  simpl. auto.
Defined.

(** ** What holds in every state the server reaches *)

Lemma NoDup_snoc {A : Type} (l : list A) (x : A) :
  NoDup l -> ~ In x l -> NoDup (l ++ [x]).
Proof.
  induction 1 as [|y l Hy Hl IH]; intros Hx; simpl.
  - constructor; [tauto | constructor].
  - constructor.
    + rewrite in_app_iff. simpl. intros [H|[H|[]]]; [tauto|].
      subst. apply Hx. now left.
    + apply IH. intros H. apply Hx. now right.
Qed.

Lemma find_by_username_none (n : option string) (us : JSMap User.t) :
  find_by_username n us = None ->
  ~ In n (map (fun u => User.username (snd u)) us).
Proof.
  unfold find_by_username.
  destruct (find _ us) eqn:E; [discriminate|]. intros _ Hin.
  apply in_map_iff in Hin. destruct Hin as (x & Hx & Hin).
  pose proof (find_none _ _ E x Hin) as Hf. cbv beta in Hf.
  rewrite Hx, strict_eq_refl in Hf. discriminate.
Qed.

Lemma names_mutate (k : string) (f : User.t -> User.t) (us : JSMap User.t) :
  (forall u, User.username (f u) = User.username u) ->
  map (fun u => User.username (snd u)) (map_mutate k f us)
  = map (fun u => User.username (snd u)) us.
Proof.
  intros Hf. induction us as [|[k0 u0] us IH]; simpl; [reflexivity|].
  destruct (String.eqb k k0); simpl; [now rewrite Hf | now rewrite IH].
Qed.

Lemma users_unique_mutate (k : string) (f : User.t -> User.t)
    (us : JSMap User.t) :
  (forall u, User.username (f u) = User.username u) ->
  users_unique us -> users_unique (map_mutate k f us).
Proof.
  intros Hf [Hk Hn]. split.
  - now rewrite keys_mutate.
  - now rewrite names_mutate.
Qed.

Lemma users_unique_new (k : string) (u : User.t) (us : JSMap User.t) :
  map_has k us = false -> find_by_username (User.username u) us = None ->
  users_unique us -> users_unique (map_set k u us).
Proof.
  intros Hfresh Hnone [Hk Hn]. rewrite map_set_fresh by assumption.
  unfold users_unique, keys. rewrite !map_app. simpl. split.
  - apply NoDup_snoc; [assumption|]. intros Hin.
    apply map_has_In in Hin. congruence.
  - apply NoDup_snoc; [assumption|]. now apply find_by_username_none.
Qed.

Lemma handle_users_unique
    (e : Env) (socket : string) (cur : option string) (ev : ClientEvent)
    (st : Store) :
  store_ok st -> map_has (generateId e) (users st) = false ->
  users_unique (users st) ->
  users_unique (users (snd (fst (handle e socket cur ev st)))).
Proof.
  intros Hok Hfresh Hu. destruct ev; cbn [handle fst snd].
  - unfold on_login.
    destruct (find_by_username username (users st)) as [found|] eqn:Hf.
    + assert (Hne : JS.truthy_str found = true).
      { apply truthy_str_true, (ok_user_ids st Hok).
        now apply find_by_username_has in Hf. }
      rewrite Hne. cbn [fst snd users]. now apply users_unique_mutate.
    + cbn [fst snd users]. now apply users_unique_new.
  - assumption.
  - now rewrite start_chat_users.
  - now rewrite send_message_users.
  - now rewrite upload_file_store.
  - now rewrite typing_keeps_store.
  - now rewrite create_group_users.
  - now rewrite get_messages_store.
  - unfold on_disconnect. by_cases; try assumption;
      now apply users_unique_mutate.
Qed.

Lemma run_users_unique (tr : list Input) (sv : Server) :
  store_ok (store sv) -> users_unique (users (store sv)) ->
  trace_ok sv tr = true ->
  users_unique (users (store (fst (run sv tr)))).
Proof.
  revert sv. induction tr as [|i tr IH]; intros sv Hok Hu Htr; [assumption|].
  cbn [trace_ok] in Htr. apply andb_true_iff in Htr. destruct Htr as [Hi Htr].
  cbn [run]. pose proof (step_store_ok sv i Hok Hi) as Hok1.
  assert (Hu1 : users_unique (users (store (fst (step sv i))))).
  { destruct i as [socket|socket e ev]; [assumption|].
    cbn [step]. destruct (map_get socket (sessions sv)) as [cur|];
      [|assumption].
    cbn [input_ok] in Hi. apply andb4 in Hi.
    destruct Hi as (_ & _ & Hfresh & _). apply negb_true_iff in Hfresh.
    pose proof (handle_users_unique e socket cur ev _ Hok Hfresh Hu) as H.
    destruct (handle e socket cur ev (store sv)) as [[cur' st'] out].
    exact H. }
  destruct (step sv i) as [sv1 out1]. cbn [fst] in *.
  specialize (IH sv1 Hok1 Hu1 Htr).
  destruct (run sv1 tr) as [sv2 out2]. exact IH.
Qed.

(** X5: in every state the server reaches from its start (with
    [generateId()] returning unused ids), no two users share an id and no two
    users share a name: ['login'] looks the name up before it creates a
    user. *)
Theorem reachable_users_unique (tr : list Input) :
  trace_ok initial tr = true ->
  users_unique (users (store (fst (run initial tr)))).
Proof.
  intros Htr. apply run_users_unique; [| |assumption].
  - constructor; cbn; intros; discriminate.
  - split; constructor.
Qed.

(** The three logins of the scenario leave three distinct names. *)
Lemma reachable_users_unique_witness :
  users_unique (users (store (fst (run initial demo_trace)))).
Proof. apply reachable_users_unique. reflexivity. Defined.

Lemma In_map_set {V : Type} (k : string) (v : V) (m : list (string * V))
    (x : string * V) :
  In x (map_set k v m) -> x = (k, v) \/ In x m.
Proof.
  induction m as [|[k0 v0] m IH]; simpl.
  - intros [<-|[]]. now left.
  - destruct (String.eqb k k0); simpl.
    + intros [<-|H]; auto.
    + intros [<-|H]; auto. destruct (IH H); auto.
Qed.

Lemma In_map_delete {V : Type} (k : string) (m : list (string * V))
    (x : string * V) :
  In x (map_delete k m) -> In x m.
Proof.
  induction m as [|[k0 v0] m IH]; simpl; [tauto|].
  destruct (String.eqb k k0); simpl; [tauto|].
  intros [<-|H]; auto.
Qed.

(** No handler removes a user. *)
Lemma handle_keeps_users
    (e : Env) (socket : string) (cur : option string) (ev : ClientEvent)
    (st : Store) (k : string) :
  map_has k (users st) = true ->
  map_has k (users (snd (fst (handle e socket cur ev st)))) = true.
Proof.
  intros Hk. destruct ev; cbn [handle fst snd].
  - unfold on_login.
    destruct (find_by_username username (users st)) as [found|];
      [destruct (JS.truthy_str found)|]; cbn [fst snd users];
      rewrite ?map_has_mutate, ?map_has_set, ?Hk, ?orb_true_r; reflexivity.
  - assumption.
  - now rewrite start_chat_users.
  - now rewrite send_message_users.
  - now rewrite upload_file_store.
  - now rewrite typing_keeps_store.
  - now rewrite create_group_users.
  - now rewrite get_messages_store.
  - unfold on_disconnect. by_cases; rewrite ?map_has_mutate; assumption.
Qed.

(** Only ['login'] changes what a session is bound to. *)
Lemma handle_binding
    (e : Env) (socket : string) (cur : option string) (ev : ClientEvent)
    (st : Store) :
  (forall username, ev <> login username) ->
  fst (fst (handle e socket cur ev st)) = cur.
Proof.
  intros Hev. destruct ev; try reflexivity. now destruct (Hev username).
Qed.

Lemma step_sessions_bound (sv : Server) (i : Input) :
  sessions_bound sv -> sessions_bound (fst (step sv i)).
Proof.
  intros Hb. destruct i as [socket|socket e ev]; cbn [step].
  - intros s c Hin. cbn [fst sessions store] in *.
    apply In_map_set in Hin. destruct Hin as [Heq|Hin]; [discriminate|].
    now apply (Hb s).
  - destruct (map_get socket (sessions sv)) as [cur|] eqn:Hs; [|assumption].
    assert (Hnew : forall c, fst (fst (handle e socket cur ev (store sv)))
                             = Some c ->
                   map_has c (users (snd (fst (handle e socket cur ev
                                                 (store sv))))) = true).
    { intros c Hc.
      assert (Hlogin : (exists username, ev = login username)
                       \/ forall username, ev <> login username).
      { destruct ev; try (right; intros; discriminate). left; eauto. }
      destruct Hlogin as [[username ->]|Hev].
      - cbn [handle] in *.
        destruct (login_marks_online e socket username (store sv) c Hc)
          as (Hget & _).
        unfold map_has.
        now destruct (map_get c
                        (users (snd (fst (on_login e socket username
                                            (store sv)))))).
      - rewrite (handle_binding e socket cur ev _ Hev) in Hc. subst cur.
        apply handle_keeps_users. apply (Hb socket).
        now apply map_get_In. }
    pose proof (fun k => handle_keeps_users e socket cur ev (store sv) k)
      as Hkeep.
    destruct (handle e socket cur ev (store sv)) as [[cur' st'] out].
    cbn [fst snd] in *.
    intros s c Hin. cbn [sessions store] in *.
    assert (Hold : In (s, Some c) (sessions sv) \/ (s, Some c) = (socket, cur')).
    { destruct ev; try (apply In_map_set in Hin; tauto).
      left. now apply In_map_delete in Hin. }
    destruct Hold as [Hold|[= _ <-]].
    + apply Hkeep. now apply (Hb s).
    + now apply Hnew.
Qed.

Lemma run_sessions_bound (tr : list Input) (sv : Server) :
  sessions_bound sv -> sessions_bound (fst (run sv tr)).
Proof.
  revert sv. induction tr as [|i tr IH]; intros sv Hb; [assumption|].
  cbn [run]. pose proof (step_sessions_bound sv i Hb) as H1.
  destruct (step sv i) as [sv1 out1]. cbn [fst] in *.
  specialize (IH sv1 H1). destruct (run sv1 tr) as [sv2 out2]. exact IH.
Qed.

(** X6: in every state the server reaches from its start, a session that has
    logged in is bound to a user that is in the registry: users are never
    removed, and ['login'] binds the session to a user it has just stored. *)
Theorem identified_session_has_user
    (tr : list Input) (socket cur : string) :
  map_get socket (sessions (fst (run initial tr))) = Some (Some cur) ->
  map_has cur (users (store (fst (run initial tr)))) = true.
Proof.
  intros Hs. apply (run_sessions_bound tr initial) with (socket := socket).
  - intros s c [].
  - now apply map_get_In.
Qed.

(** Alice's session in the scenario. *)
Lemma identified_session_has_user_witness :
  map_has "u1" (users (store (fst (run initial demo_trace)))) = true.
Proof.
  apply (identified_session_has_user demo_trace "s1" "u1"). reflexivity.
Defined.

(** Setting a key that is not in the map leaves every entry that is. *)
Lemma map_get_set_absent {V : Type} (k k' : string) (v v' : V)
    (m : list (string * V)) :
  map_has k m = false -> map_get k' m = Some v' ->
  map_get k' (map_set k v m) = Some v'.
Proof.
  intros Hk Hget. rewrite map_get_set_other; [assumption|].
  intros ->. unfold map_has in Hk. now rewrite Hget in Hk.
Qed.

Lemma handle_chat_fixed
    (e : Env) (socket : string) (cur : option string) (ev : ClientEvent)
    (st : Store) (cid : string) (chat : Chat.t) :
  map_has (generateId e) (chats st) = false ->
  map_get cid (chats st) = Some chat ->
  map_get cid (chats (snd (fst (handle e socket cur ev st)))) = Some chat.
Proof.
  intros Hfresh Hchat. destruct ev; cbn [handle fst snd].
  - now rewrite (proj2 (login_logs e socket username st)).
  - assumption.
  - unfold on_start_chat. by_cases; try assumption;
      apply map_get_set_absent; try assumption;
      match goal with
      | H : negb (map_has _ _) = true |- _ => now apply negb_true_iff in H
      end.
  - unfold on_send_message. by_cases; assumption.
  - now rewrite upload_file_store.
  - now rewrite typing_keeps_store.
  - unfold on_create_group. by_cases; try assumption;
      now apply map_get_set_absent.
  - now rewrite get_messages_store.
  - now rewrite (proj2 (disconnect_logs socket cur st)).
Qed.

Lemma handle_user_kept
    (e : Env) (socket : string) (cur : option string) (ev : ClientEvent)
    (st : Store) (id : string) (u : User.t) :
  map_has (generateId e) (users st) = false ->
  map_get id (users st) = Some u ->
  exists u', map_get id (users (snd (fst (handle e socket cur ev st))))
             = Some u'
             /\ same_identity u u'.
Proof.
  intros Hfresh Hget.
  assert (Hsame : exists u', map_get id (users st) = Some u'
                             /\ same_identity u u').
  { exists u. split; [assumption | split; reflexivity]. }
  assert (Hmut : forall k f,
             (forall x, same_identity x (f x)) ->
             exists u', map_get id (map_mutate k f (users st)) = Some u'
                        /\ same_identity u u').
  { intros k f Hf. rewrite map_get_mutate.
    destruct (String.eqb_spec id k) as [->|]; [|assumption].
    rewrite Hget. cbn. exists (f u). split; [reflexivity | apply Hf]. }
  destruct ev; cbn [handle fst snd].
  - unfold on_login.
    destruct (find_by_username username (users st)) as [found|];
      [destruct (JS.truthy_str found)|]; cbn [fst snd users].
    + apply Hmut. intros x. split; reflexivity.
    + exists u. split; [now apply map_get_set_absent | split; reflexivity].
    + exists u. split; [now apply map_get_set_absent | split; reflexivity].
  - assumption.
  - now rewrite start_chat_users.
  - now rewrite send_message_users.
  - now rewrite upload_file_store.
  - now rewrite typing_keeps_store.
  - now rewrite create_group_users.
  - now rewrite get_messages_store.
  - unfold on_disconnect. by_cases; try assumption;
      apply Hmut; intros x; split; reflexivity.
Qed.

(** What one turn of the event loop keeps: registered chats as they are,
    registered users with their name and creation time. *)
Lemma step_keeps_entities (sv : Server) (i : Input) :
  input_ok sv i = true ->
  (forall cid chat,
      map_get cid (chats (store sv)) = Some chat ->
      map_get cid (chats (store (fst (step sv i)))) = Some chat)
  /\ (forall id u,
        map_get id (users (store sv)) = Some u ->
        exists u', map_get id (users (store (fst (step sv i)))) = Some u'
                   /\ same_identity u u').
Proof.
  intros Hi.
  destruct i as [socket|socket e ev]; cbn [step].
  - split; [auto|]. intros id u Hu. exists u. repeat split. assumption.
  - destruct (map_get socket (sessions sv)) as [cur|].
    + cbn [input_ok] in Hi. apply andb4 in Hi.
      destruct Hi as (_ & _ & Hfu & Hfc).
      apply negb_true_iff in Hfu. apply negb_true_iff in Hfc.
      pose proof (fun cid chat =>
                    handle_chat_fixed e socket cur ev _ cid chat Hfc) as Hc.
      pose proof (fun id u =>
                    handle_user_kept e socket cur ev _ id u Hfu) as Hu.
      destruct (handle e socket cur ev (store sv)) as [[cur' st'] out].
      split; assumption.
    + split; [auto|]. intros id u Hu. exists u. repeat split. assumption.
Qed.

(** X7: a registered chat is never removed or changed.  Over any trace of
    events (with [generateId()] returning unused ids) the chat stored under
    an id stays the same record: same participants, type, name, creation
    time and creator. *)
Theorem chats_are_fixed
    (tr : list Input) (sv : Server) (cid : string) (chat : Chat.t) :
  trace_ok sv tr = true ->
  map_get cid (chats (store sv)) = Some chat ->
  map_get cid (chats (store (fst (run sv tr)))) = Some chat.
Proof.
  revert sv. induction tr as [|i tr IH]; intros sv Htr Hchat; [assumption|].
  cbn [trace_ok] in Htr. apply andb_true_iff in Htr. destruct Htr as [Hi Htr].
  cbn [run]. destruct (step_keeps_entities sv i Hi) as [Hc _].
  specialize (Hc cid chat Hchat).
  destruct (step sv i) as [sv1 out1]. cbn [fst] in *.
  specialize (IH sv1 Htr Hc). destruct (run sv1 tr) as [sv2 out2]. exact IH.
Qed.

(** Alice-and-bob's chat after bob's answer and a new group. *)
Lemma chats_are_fixed_witness :
  map_get "u1-u2" (chats (store (fst (run demo demo_reply))))
  = Some (Chat.mk ["u1"; "u2"]%string private None 4 None).
Proof. apply chats_are_fixed; reflexivity. Defined.

(** X8: a registered user is never removed, and its name and creation time
    never change.  Over any trace of events (with [generateId()] returning
    unused ids) the id still maps to a user with the same [username] and
    [createdAt]; only [socketId] and [online] can differ. *)
Theorem users_persist
    (tr : list Input) (sv : Server) (id : string) (u : User.t) :
  trace_ok sv tr = true ->
  map_get id (users (store sv)) = Some u ->
  exists u', map_get id (users (store (fst (run sv tr)))) = Some u'
             /\ same_identity u u'.
Proof.
  revert sv u. induction tr as [|i tr IH]; intros sv u Htr Hu.
  - exists u. repeat split. assumption.
  - cbn [trace_ok] in Htr. apply andb_true_iff in Htr.
    destruct Htr as [Hi Htr].
    cbn [run]. destruct (step_keeps_entities sv i Hi) as [_ Hk].
    destruct (Hk id u Hu) as (u1 & Hu1 & [Hn1 Hc1]).
    destruct (step sv i) as [sv1 out1]. cbn [fst] in *.
    destruct (IH sv1 u1 Htr Hu1) as (u2 & Hu2 & [Hn2 Hc2]).
    destruct (run sv1 tr) as [sv2 out2]. cbn [fst] in *.
    exists u2. split; [assumption|]. split; congruence.
Qed.

(** Bob is still bob after his client has gone and others went on. *)
Lemma users_persist_witness :
  exists u', map_get "u2" (users (store (fst (run demo_bob_gone demo_reply))))
             = Some u'
             /\ same_identity (User.mk (Some "bob"%string) "s2" false 2) u'.
Proof.
  apply (users_persist demo_reply demo_bob_gone "u2"); reflexivity.
Defined.

Lemma message_ok_chats (st st' : Store) (cid : string) (m : Message.t) :
  (forall chat, map_get cid (chats st) = Some chat ->
                map_get cid (chats st') = Some chat) ->
  message_ok st cid m -> message_ok st' cid m.
Proof.
  intros Hc (Hid & (chat & Hchat & Hin) & Hread & Hbody).
  repeat split; try assumption. exists chat. auto.
Qed.

(** Registering a chat together with an empty message array keeps the
    stored messages as they should be. *)
Lemma logs_ok_new_chat (st : Store) (k : string) (c : Chat.t) :
  logs_ok st ->
  logs_ok (mkStore (users st) (map_set k [] (messages st))
             (map_set k c (chats st))).
Proof.
  intros Hl cid log m Hlog Hin. cbn [messages] in Hlog.
  destruct (String.eqb_spec cid k) as [->|Hne].
  - rewrite map_get_set_same in Hlog. injection Hlog as <-. destruct Hin.
  - rewrite map_get_set_other in Hlog by assumption.
    apply (message_ok_chats st); [|now apply (Hl cid log)].
    intros chat Hchat. cbn [chats]. now rewrite map_get_set_other.
Qed.

Lemma send_message_logs_ok e socket cur cid text file st :
  logs_ok st ->
  logs_ok (fst (on_send_message e socket cur cid text file st)).
Proof.
  intros Hl. unfold on_send_message.
  destruct cur as [cur|]; [|assumption].
  destruct cid as [cid|]; [|assumption].
  destruct (negb (JS.truthy_str cur) || negb (JS.truthy_str cid));
    [assumption|].
  destruct (negb (JS.truthy text)
            && negb (match file with Some _ => true | None => false end))
    eqn:Hbody; [assumption|].
  destruct (map_get cid (chats st)) as [chat|] eqn:Hchat; [|assumption].
  destruct (JS.includes (Chat.participants chat) cur) eqn:Hinc;
    [|assumption].
  cbn [negb fst]. intros cid' log m Hlog Hin. cbn [messages] in Hlog.
  destruct (String.eqb_spec cid' cid) as [->|Hne].
  - rewrite map_get_set_same in Hlog. injection Hlog as <-.
    apply in_app_or in Hin. destruct Hin as [Hin|[<-|[]]].
    + destruct (map_get cid (messages st)) as [old|] eqn:Hold;
        [|destruct Hin].
      apply (message_ok_chats st); [auto|]. now apply (Hl cid old).
    + unfold message_ok. cbn. repeat split.
      * exists chat. split; [assumption | now apply includes_In].
      * apply andb_false_iff in Hbody. rewrite !negb_false_iff in Hbody.
        destruct Hbody as [Ht|Hf].
        -- left. destruct text as [t|]; [|discriminate].
           simpl in Ht |- *. rewrite Ht. now apply truthy_str_true.
        -- right. now destruct file.
  - rewrite map_get_set_other in Hlog by assumption.
    apply (message_ok_chats st); [auto|]. now apply (Hl cid' log).
Qed.

Lemma handle_logs_ok
    (e : Env) (socket : string) (cur : option string) (ev : ClientEvent)
    (st : Store) :
  logs_ok st -> logs_ok (snd (fst (handle e socket cur ev st))).
Proof.
  intros Hl. destruct ev; cbn [handle fst snd].
  - destruct (login_logs e socket username st) as [Hm Hc].
    intros cid log m Hlog Hin. rewrite Hm in Hlog.
    apply (message_ok_chats st); [now rewrite Hc | now apply (Hl cid log)].
  - assumption.
  - unfold on_start_chat. by_cases; try assumption;
      now apply logs_ok_new_chat.
  - now apply send_message_logs_ok.
  - now rewrite upload_file_store.
  - now rewrite typing_keeps_store.
  - unfold on_create_group. by_cases; try assumption;
      now apply logs_ok_new_chat.
  - now rewrite get_messages_store.
  - destruct (disconnect_logs socket cur st) as [Hm Hc].
    intros cid log m Hlog Hin. rewrite Hm in Hlog.
    apply (message_ok_chats st); [now rewrite Hc | now apply (Hl cid log)].
Qed.

Lemma run_logs_ok (tr : list Input) (sv : Server) :
  logs_ok (store sv) -> logs_ok (store (fst (run sv tr))).
Proof.
  revert sv. induction tr as [|i tr IH]; intros sv Hl; [assumption|].
  cbn [run].
  assert (H1 : logs_ok (store (fst (step sv i)))).
  { destruct i as [socket|socket e ev]; cbn [step]; [assumption|].
    destruct (map_get socket (sessions sv)) as [cur|]; [|assumption].
    pose proof (handle_logs_ok e socket cur ev _ Hl) as H.
    destruct (handle e socket cur ev (store sv)) as [[cur' st'] out].
    exact H. }
  destruct (step sv i) as [sv1 out1]. cbn [fst] in *.
  specialize (IH sv1 H1). destruct (run sv1 tr) as [sv2 out2]. exact IH.
Qed.

(** X9: in every state the server reaches from its start, every message in
    the array of a chat carries that chat's id, was sent by one of the
    participants of that (registered) chat, has [read = false], and has a
    non-empty text or a file. *)
Theorem stored_messages_are_sound
    (tr : list Input) (cid : string) (log : list Message.t) (m : Message.t) :
  map_get cid (messages (store (fst (run initial tr)))) = Some log ->
  In m log ->
  message_ok (store (fst (run initial tr))) cid m.
Proof.
  apply (run_logs_ok tr initial). intros c l x Hl. discriminate.
Qed.

(** Alice's hello in the scenario. *)
Lemma stored_messages_are_sound_witness :
  message_ok (store (fst (run initial demo_trace))) "u1-u2" hello.
Proof.
  apply (stored_messages_are_sound demo_trace "u1-u2" [hello]).
  - reflexivity.
  - now left.
Defined.

(** ** [GET /api/health] *)

Lemma fold_left_sum (l : list (list Message.t)) (a : nat) :
  fold_left (fun sum msgs => sum + List.length msgs) l a
  = a + fold_left (fun sum msgs => sum + List.length msgs) l 0.
Proof.
  revert a. induction l as [|x l IH]; intros a; simpl; [lia|].
  rewrite (IH (a + List.length x)), (IH (List.length x)). lia.
Qed.

Lemma total_cons (k : string) (l : list Message.t)
    (m : JSMap (list Message.t)) :
  fold_left (fun sum msgs => sum + List.length msgs) (map snd ((k, l) :: m)) 0
  = List.length l
    + fold_left (fun sum msgs => sum + List.length msgs) (map snd m) 0.
Proof. simpl. now rewrite fold_left_sum. Qed.

(** Replacing the array under a key changes the total by the difference of
    the lengths; a new key adds the length of its array. *)
Lemma total_map_set (k : string) (l : list Message.t)
    (m : JSMap (list Message.t)) :
  fold_left (fun sum msgs => sum + List.length msgs)
    (map snd (map_set k l m)) 0
  + List.length (match map_get k m with Some old => old | None => [] end)
  = fold_left (fun sum msgs => sum + List.length msgs) (map snd m) 0
    + List.length l.
Proof.
  induction m as [|[k0 l0] m IH].
  - simpl. lia.
  - cbn [map_set map_get]. destruct (String.eqb k k0).
    + rewrite !total_cons. lia.
    + rewrite !total_cons. lia.
Qed.

Lemma length_mutate {V : Type} (k : string) (f : V -> V)
    (m : list (string * V)) :
  List.length (map_mutate k f m) = List.length m.
Proof.
  induction m as [|[k0 v0] m IH]; simpl; [reflexivity|].
  destruct (String.eqb k k0); simpl; [reflexivity | now rewrite IH].
Qed.

Lemma length_map_set_le {V : Type} (k : string) (v : V)
    (m : list (string * V)) :
  List.length m <= List.length (map_set k v m).
Proof. rewrite length_map_set. destruct (map_has k m); lia. Qed.

Lemma health_le_refl (h : Health.t) : health_le h h.
Proof. unfold health_le. lia. Qed.

Lemma health_le_trans (a b c : Health.t) :
  health_le a b -> health_le b c -> health_le a c.
Proof. unfold health_le. lia. Qed.

(** A new chat with an empty array, under an id no array is stored for. *)
Lemma health_new_chat (st : Store) (k : string) (c : Chat.t) :
  map_has k (messages st) = false ->
  health_le (api_health st)
    (api_health (mkStore (users st) (map_set k [] (messages st))
                   (map_set k c (chats st)))).
Proof.
  intros Hk. unfold health_le, api_health.
  cbn [Health.users Health.chats Health.messages users messages chats].
  pose proof (length_map_set_le k c (chats st)).
  pose proof (total_map_set k [] (messages st)) as Ht.
  unfold map_has in Hk. destruct (map_get k (messages st)); [discriminate|].
  simpl in Ht. lia.
Qed.

Lemma absent_log (st : Store) (k : string) :
  store_ok st -> map_has k (chats st) = false ->
  map_has k (messages st) = false.
Proof.
  intros Hok Hk. destruct (map_has k (messages st)) eqn:E; [|reflexivity].
  apply (ok_logs st Hok) in E. congruence.
Qed.

Lemma handle_health
    (e : Env) (socket : string) (cur : option string) (ev : ClientEvent)
    (st : Store) :
  store_ok st -> map_has (generateId e) (chats st) = false ->
  health_le (api_health st)
    (api_health (snd (fst (handle e socket cur ev st)))).
Proof.
  intros Hok Hfresh. destruct ev; cbn [handle fst snd];
    try apply health_le_refl.
  - unfold on_login.
    destruct (find_by_username username (users st)) as [found|];
      [destruct (JS.truthy_str found)|]; cbn [fst snd];
      unfold health_le, api_health;
      cbn [Health.users Health.chats Health.messages users messages chats];
      rewrite ?length_mutate;
      pose proof (length_map_set_le (generateId e)
                    (User.mk username socket true (Date_now e)) (users st));
      lia.
  - unfold on_start_chat. by_cases; try apply health_le_refl;
      apply health_new_chat; apply absent_log; try assumption;
      match goal with
      | H : negb (map_has _ _) = true |- _ => now apply negb_true_iff in H
      end.
  - unfold on_send_message. by_cases; try apply health_le_refl;
      unfold health_le, api_health;
      cbn [Health.users Health.chats Health.messages users messages chats];
      match goal with
      | |- context [map_set ?k ?l (messages st)] =>
          pose proof (total_map_set k l (messages st)) as Ht
      end;
      match goal with
      | H : map_get _ (messages st) = _ |- _ => rewrite H in Ht
      end;
      rewrite length_app in Ht; cbn [List.length] in Ht; lia.
  - rewrite upload_file_store. apply health_le_refl.
  - rewrite typing_keeps_store. apply health_le_refl.
  - unfold on_create_group. by_cases; try apply health_le_refl;
      apply health_new_chat; now apply absent_log.
  - rewrite get_messages_store. apply health_le_refl.
  - unfold on_disconnect. by_cases; try apply health_le_refl;
      unfold health_le, api_health;
      cbn [Health.users Health.chats Health.messages users messages chats];
      rewrite length_mutate; lia.
Qed.

(** X10: the three counts of the health report never go down.  From a
    well-formed state and over any trace of events (with [generateId()]
    returning unused ids), the number of users, the number of chats and the
    total number of messages are each at least what they were. *)
Theorem health_counts_never_decrease (tr : list Input) (sv : Server) :
  store_ok (store sv) -> trace_ok sv tr = true ->
  health_le (api_health (store sv)) (api_health (store (fst (run sv tr)))).
Proof.
  revert sv. induction tr as [|i tr IH]; intros sv Hok Htr;
    [apply health_le_refl|].
  cbn [trace_ok] in Htr. apply andb_true_iff in Htr. destruct Htr as [Hi Htr].
  cbn [run]. pose proof (step_store_ok sv i Hok Hi) as Hok1.
  assert (H1 : health_le (api_health (store sv))
                 (api_health (store (fst (step sv i))))).
  { destruct i as [socket|socket e ev]; cbn [step]; [apply health_le_refl|].
    destruct (map_get socket (sessions sv)) as [cur|];
      [|apply health_le_refl].
    cbn [input_ok] in Hi. apply andb4 in Hi.
    destruct Hi as (_ & _ & _ & Hfresh). apply negb_true_iff in Hfresh.
    pose proof (handle_health e socket cur ev _ Hok Hfresh) as H.
    destruct (handle e socket cur ev (store sv)) as [[cur' st'] out].
    exact H. }
  destruct (step sv i) as [sv1 out1]. cbn [fst] in *.
  specialize (IH sv1 Hok1 Htr). destruct (run sv1 tr) as [sv2 out2].
  cbn [fst] in *. exact (health_le_trans _ _ _ H1 IH).
Qed.

(** From the scenario on: three users, then one chat and message more. *)
Lemma health_counts_never_decrease_witness :
  health_le (Health.mk "ok" 3 1 1 true)
    (api_health (store (fst (run demo demo_reply)))).
Proof.
  apply (health_counts_never_decrease demo_reply demo).
  - apply store_okb_sound. reflexivity.
  - reflexivity.
Defined.

(** X11: a ['send-message'] that passes its guards raises the message count
    of the health report by exactly one and leaves the two other counts. *)
Theorem send_message_counts_once
    (e : Env) (socket cur cid : string) (text : option string)
    (file : option FileInfo.t) (st : Store) (chat : Chat.t) :
  cur <> EmptyString -> cid <> EmptyString ->
  JS.truthy text = true \/ file <> None ->
  map_get cid (chats st) = Some chat ->
  In cur (Chat.participants chat) ->
  api_health (fst (on_send_message e socket (Some cur) (Some cid) text file st))
  = Health.mk "ok" (Health.users (api_health st))
      (Health.chats (api_health st)) (S (Health.messages (api_health st)))
      true.
Proof.
  intros Hcur Hcid Hbody Hchat Hin. unfold on_send_message.
  apply truthy_str_true in Hcur. apply truthy_str_true in Hcid.
  rewrite Hcur, Hcid. cbn [negb orb].
  assert (Hb : negb (JS.truthy text)
               && negb (match file with Some _ => true | None => false end)
               = false).
  { destruct Hbody as [Ht|Hf]; [now rewrite Ht|].
    destruct file; [apply andb_false_r | congruence]. }
  rewrite Hb, Hchat. apply includes_In in Hin. rewrite Hin.
  cbn [negb fst]. unfold api_health.
  cbn [Health.users Health.chats Health.messages users messages chats].
  f_equal.
  match goal with
  | |- context [map_set ?k ?l (messages st)] =>
      pose proof (total_map_set k l (messages st)) as Ht
  end.
  rewrite length_app in Ht. cbn [List.length] in Ht. lia.
Qed.

(** Bob's answer in the scenario: two messages instead of one. *)
Lemma send_message_counts_once_witness :
  api_health (fst (on_send_message (env_at 7 "m7") "s2" (Some "u2"%string)
                     (Some "u1-u2"%string) (Some "hi"%string) None
                     (store demo)))
  = Health.mk "ok" 3 1 2 true.
Proof.
  apply (send_message_counts_once (env_at 7 "m7") "s2" "u2" "u1-u2"
           (Some "hi"%string) None (store demo)
           (Chat.mk ["u1"; "u2"]%string private None 4 None)).
  - discriminate.
  - discriminate.
  - now left.
  - reflexivity.
  - simpl. auto.
Defined.

(** ** More on the single handlers *)

(** X12: ['typing'] on a registered chat emits one ['user-typing'] per entry
    of the chat's participants that is not the caller and whose user passes
    the delivery guard; the caller's own entries never get one, and the
    registries are not changed.  On an unregistered chat it does nothing. *)
Theorem typing_fanout
    (socket cur cid : string) (isTyping : bool) (st : Store) :
  cur <> EmptyString -> cid <> EmptyString ->
  let r := on_typing socket (Some cur) (Some cid) isTyping st in
  let notice p :=
    (to_socket (socket_of (users st) p),
     user_typing cid cur (username_of (users st) cur) isTyping) in
  fst r = st
  /\ (map_get cid (chats st) = None -> snd r = [])
  /\ (forall chat,
        map_get cid (chats st) = Some chat ->
        snd r =
          map notice
            (filter (fun p => negb (String.eqb p cur)
                              && deliverable (users st) p)
               (Chat.participants chat))
        /\ (forall x, In x (snd r) ->
                      exists p, In p (Chat.participants chat) /\ p <> cur
                                /\ deliverable (users st) p = true
                                /\ x = notice p)).
Proof.
  intros Hcur Hcid r notice. subst r.
  split; [apply typing_keeps_store|].
  unfold on_typing. apply truthy_str_true in Hcur. apply truthy_str_true in Hcid.
  rewrite Hcur, Hcid. cbn [negb orb]. split.
  - now intros ->.
  - intros chat ->. cbn [snd].
    assert (Heq : flat_map
                    (fun participantId =>
                       if negb (String.eqb participantId cur)
                       then if deliverable (users st) participantId
                            then [notice participantId] else []
                       else [])
                    (Chat.participants chat)
                  = map notice
                      (filter (fun p => negb (String.eqb p cur)
                                        && deliverable (users st) p)
                         (Chat.participants chat))).
    { induction (Chat.participants chat) as [|p l IH]; [reflexivity|].
      cbn [flat_map filter]. rewrite IH.
      destruct (negb (String.eqb p cur)), (deliverable (users st) p);
        reflexivity. }
    split; [exact Heq|].
    intros x Hx.
    assert (Hx' : In x (map notice
                          (filter (fun p => negb (String.eqb p cur)
                                            && deliverable (users st) p)
                             (Chat.participants chat))))
      by (rewrite <- Heq; exact Hx).
    clear Hx. rename Hx' into Hx.
    apply in_map_iff in Hx. destruct Hx as (p & <- & Hp).
    apply filter_In in Hp. destruct Hp as [Hin Hg].
    apply andb_true_iff in Hg. destruct Hg as [Hne Hd].
    exists p. repeat split; try assumption.
    apply negb_true_iff, String.eqb_neq in Hne. exact Hne.
Qed.

(** Alice types in the chat with bob: only bob is told. *)
Lemma typing_fanout_witness :
  snd (on_typing "s1" (Some "u1"%string) (Some "u1-u2"%string) true
         (store demo))
  = [ (to_socket "s2",
       user_typing "u1-u2" "u1" (Some "alice"%string) true) ].
Proof.
  pose proof (typing_fanout "s1" "u1" "u1-u2" true (store demo)) as H.
  cbv zeta in H.
  destruct H as (_ & _ & Hout); [discriminate | discriminate |].
  destruct (Hout (Chat.mk ["u1"; "u2"]%string private None 4 None))
    as [Heq _]; [reflexivity|].
  rewrite Heq. reflexivity.
Defined.

(** X13: ['get-users'] leaves the registries alone and answers the caller
    with one entry per user other than the caller, in registry order, each
    with the stored name and [online] flag, whatever that flag is.  It has
    no guard: an anonymous caller gets every user. *)
Theorem get_users_reply (socket : string) (cur : option string) (st : Store) :
  exists l,
    on_get_users socket cur st = (st, [ (to_socket socket, users_list l) ])
    /\ map UserEntry.userId l
       = filter (fun id => negb (JS.strict_eq (Some id) cur)) (keys (users st))
    /\ (forall en, In en l ->
                   Some (UserEntry.userId en) <> cur
                   /\ exists u, In (UserEntry.userId en, u) (users st)
                                /\ UserEntry.username en = User.username u
                                /\ UserEntry.online en = User.online u)
    /\ (cur = None -> List.length l = List.length (users st)).
Proof.
  exists (map (fun u : string * User.t =>
                 UserEntry.mk (fst u) (User.username (snd u))
                   (User.online (snd u)))
            (filter (fun u : string * User.t =>
                       negb (JS.strict_eq (Some (fst u)) cur)) (users st))).
  split; [|split; [|split]].
  - unfold on_get_users. now rewrite flat_map_guard.
  - rewrite map_map. cbn [UserEntry.userId]. unfold keys.
    induction (users st) as [|[k u] us IH]; [reflexivity|].
    cbn [filter map fst].
    destruct (negb (JS.strict_eq (Some k) cur)); cbn [map fst];
      now rewrite IH.
  - intros en Hen. apply in_map_iff in Hen. destruct Hen as ([k u] & <- & Hin).
    apply filter_In in Hin. destruct Hin as [Hin Hg]. cbn in *. split.
    + intros [= <-]. now rewrite String.eqb_refl in Hg.
    + exists u. auto.
  - intros ->. rewrite length_map. f_equal.
    induction (users st) as [|x us IH]; [reflexivity|].
    cbn [filter JS.strict_eq negb]. f_equal. exact IH.
Qed.

(** X14: ['disconnect'] on a session bound to a registered user clears that
    user's [online] flag and nothing else: the stored socket id stays as it
    is (whether or not it is the socket that went away), every other user,
    the ids, the chats and the messages are untouched, and the one emit is
    the ['user-offline'] broadcast. *)
Theorem disconnect_marks_offline
    (socket cur : string) (user : User.t) (st : Store) :
  cur <> EmptyString -> map_get cur (users st) = Some user ->
  let r := on_disconnect socket (Some cur) st in
  map_get cur (users (fst r))
  = Some (User.mk (User.username user) (User.socketId user) false
            (User.createdAt user))
  /\ (forall id, id <> cur ->
                 map_get id (users (fst r)) = map_get id (users st))
  /\ keys (users (fst r)) = keys (users st)
  /\ messages (fst r) = messages st /\ chats (fst r) = chats st
  /\ snd r = [ (broadcast_except socket,
                user_offline cur (User.username user)) ].
Proof.
  intros Hcur Hget r. subst r. unfold on_disconnect.
  apply truthy_str_true in Hcur. rewrite Hcur, Hget.
  cbn [fst snd users messages chats]. repeat split.
  - now rewrite map_get_mutate, String.eqb_refl, Hget.
  - intros id Hne. rewrite map_get_mutate.
    apply String.eqb_neq in Hne. now rewrite Hne.
  - apply keys_mutate.
Qed.

(** Bob's client goes away. *)
Lemma disconnect_marks_offline_witness :
  map_get "u2" (users (fst (on_disconnect "s2" (Some "u2"%string)
                              (store demo))))
  = Some (User.mk (Some "bob"%string) "s2" false 2).
Proof.
  pose proof (disconnect_marks_offline "s2" "u2"
                (User.mk (Some "bob"%string) "s2" true 2) (store demo)) as H.
  cbv zeta in H.
  destruct H as (Hoff & _); [discriminate | reflexivity |].
  exact Hoff.
Defined.

(** X15: ['upload-file'] never changes the registries (so it appends no
    message), and what it emits goes to the caller only: nothing when the
    session is anonymous or [chatId] or [fileData] is missing, otherwise
    exactly one event, ['file-uploaded'] carrying that [chatId] when the
    write succeeded and ['upload-error'] when it threw.  The chat need not
    be registered and the caller need not be one of its participants. *)
Theorem upload_file_answers_caller_only
    (e : Env) (socket : string) (cur cid data : option string)
    (fileName fileType : string) (st : Store) :
  let r := on_upload_file e socket cur cid data fileName fileType st in
  fst r = st
  /\ (forall x, In x (snd r) -> fst x = to_socket socket)
  /\ (if JS.truthy cur && JS.truthy cid && JS.truthy data
      then exists ev,
             snd r = [ (to_socket socket, ev) ]
             /\ match written e with
                | Some n =>
                    exists info,
                      ev = file_uploaded (JS.or_else cid "") info
                      /\ FileInfo.originalName info = fileName
                      /\ FileInfo.size info = n
                      /\ FileInfo.url info
                         = String.append "/uploads/" (FileInfo.filename info)
                | None => ev = upload_error "Failed to upload file"
                end
      else snd r = []).
Proof.
  cbv zeta. split; [apply upload_file_store|].
  unfold on_upload_file. destruct cid as [c|]; cbn [JS.truthy];
    [|rewrite andb_false_r; cbn; split; [tauto | reflexivity]].
  destruct (JS.truthy cur), (JS.truthy_str c) eqn:Hc, (JS.truthy data);
    cbn [negb orb andb snd]; try (split; [cbn; tauto | reflexivity]).
  unfold JS.or_else. rewrite Hc.
  destruct (written e) as [n|]; cbn [snd].
  - split; [intros x [<-|[]]; reflexivity|].
    eexists. split; [reflexivity|]. eexists. repeat split.
  - split; [intros x [<-|[]]; reflexivity|].
    eexists. split; reflexivity.
Qed.

(** X16: a ['start-chat'] that passes its guard leaves the users alone and
    answers the caller with ['chat-started'] for the pair's chat id: the
    history is the stored array of an already registered chat and is empty
    for a chat registered by this call.  Besides the caller, only the target
    can be told, with one ['new-chat'] on its stored socket, and only if it
    is registered and online; a target that is not registered is shown as
    "Unknown", offline, and nobody else is told. *)
Theorem start_chat_reply_and_notice
    (e : Env) (socket cur target : string) (st : Store) :
  cur <> EmptyString -> target <> EmptyString ->
  let r := on_start_chat e socket (Some cur) (Some target) st in
  let chatId := getChatId cur target in
  users (fst r) = users st
  /\ exists info history notice,
       snd r = (to_socket socket, chat_started info history) :: notice
       /\ ChatInfo.chatId info = chatId
       /\ ChatInfo.participants info = [cur; target]
       /\ ChatInfo.online info = online_of (users st) target
       /\ history =
          (if map_has chatId (chats st)
           then match map_get chatId (messages st) with
                | Some l => l
                | None => []
                end
           else [])
       /\ (online_of (users st) target = false -> notice = [])
       /\ (online_of (users st) target = true ->
           exists ninfo,
             notice = [ (to_socket (socket_of (users st) target),
                         new_chat ninfo) ]
             /\ ChatInfo.chatId ninfo = chatId
             /\ ChatInfo.participants ninfo = [cur; target])
       /\ (map_get target (users st) = None ->
           ChatInfo.name info = "Unknown"%string).
Proof.
  intros Hcur Htarget r chatId. subst r chatId.
  split; [apply start_chat_users|].
  unfold on_start_chat, online_of, socket_of.
  apply truthy_str_true in Hcur. apply truthy_str_true in Htarget.
  rewrite Hcur, Htarget. cbn [negb orb].
  destruct (map_has (getChatId cur target) (chats st)) eqn:Hhas;
    cbn [negb snd users messages].
  - do 3 eexists. split; [reflexivity|].
    cbn [ChatInfo.chatId ChatInfo.participants ChatInfo.online ChatInfo.name].
    repeat split.
    + intros Hoff. destruct (map_get target (users st)) as [u|];
        [now rewrite Hoff | reflexivity].
    + intros Hon. destruct (map_get target (users st)) as [u|];
        [|discriminate].
      rewrite Hon. eexists. repeat split.
    + now intros ->.
  - do 3 eexists. split; [reflexivity|].
    cbn [ChatInfo.chatId ChatInfo.participants ChatInfo.online ChatInfo.name].
    rewrite map_get_set_same. repeat split.
    + intros Hoff. destruct (map_get target (users st)) as [u|];
        [now rewrite Hoff | reflexivity].
    + intros Hon. destruct (map_get target (users st)) as [u|];
        [|discriminate].
      rewrite Hon. eexists. repeat split.
    + now intros ->.
Qed.

(** Mallory opens a chat with alice: empty history, alice is told. *)
Lemma start_chat_reply_and_notice_witness :
  map fst (snd (on_start_chat (env_at 9 "x9") "s3" (Some "u3"%string)
                  (Some "u1"%string) (store demo)))
  = [to_socket "s3"; to_socket "s1"].
Proof.
  pose proof (start_chat_reply_and_notice (env_at 9 "x9") "s3" "u3" "u1"
                (store demo)) as H.
  cbv zeta in H.
  destruct H as (_ & info & history & notice & Hout & _ & _ & _ & _ & _
                 & Hon & _); [discriminate | discriminate |].
  destruct Hon as (ninfo & Hn & _); [reflexivity|].
  rewrite Hout, Hn. reflexivity.
Defined.

(** X17: the ['login-success'] reply lists exactly the registered chats whose
    participants include the user logging in, in registry order, each with
    the participants and type that are stored; ['login'] itself changes
    neither chats nor messages. *)
Theorem login_lists_own_chats
    (e : Env) (socket : string) (username : option string) (st : Store) :
  let r := on_login e socket username st in
  exists userId userChats,
    fst (fst r) = Some userId
    /\ messages (snd (fst r)) = messages st
    /\ chats (snd (fst r)) = chats st
    /\ snd r = [ (to_socket socket, login_success userId username userChats);
                 (broadcast_except socket, user_online userId username) ]
    /\ map ChatSummary.chatId userChats
       = map fst (filter (fun c => JS.includes (Chat.participants (snd c))
                                     userId) (chats st))
    /\ (forall s, In s userChats ->
                  exists chat,
                    In (ChatSummary.chatId s, chat) (chats st)
                    /\ In userId (Chat.participants chat)
                    /\ ChatSummary.participants s = Chat.participants chat
                    /\ ChatSummary.type s = Chat.type chat).
Proof.
  cbv zeta.
  assert (Hgen : forall userId us,
             let st' := mkStore us (messages st) (chats st) in
             let userChats :=
               flat_map
                 (fun c =>
                    if JS.includes (Chat.participants (snd c)) userId
                    then [summarize st' userId (fst c) (snd c)] else [])
                 (chats st') in
             map ChatSummary.chatId userChats
             = map fst (filter (fun c => JS.includes (Chat.participants (snd c))
                                           userId) (chats st))
             /\ (forall s, In s userChats ->
                   exists chat,
                     In (ChatSummary.chatId s, chat) (chats st)
                     /\ In userId (Chat.participants chat)
                     /\ ChatSummary.participants s = Chat.participants chat
                     /\ ChatSummary.type s = Chat.type chat)).
  { intros userId us st' userChats. subst userChats. cbn [chats st'].
    rewrite flat_map_guard. split.
    - rewrite map_map. reflexivity.
    - intros s Hs. apply in_map_iff in Hs. destruct Hs as ([k c] & <- & Hin).
      apply filter_In in Hin. destruct Hin as [Hin Hinc]. cbn in *.
      exists c. repeat split; try assumption. now apply includes_In. }
  unfold on_login.
  destruct (find_by_username username (users st)) as [found|];
    [destruct (JS.truthy_str found)|]; cbn [fst snd messages chats];
    do 2 eexists; (split; [reflexivity|]);
    (split; [reflexivity|]); (split; [reflexivity|]);
    (split; [reflexivity|]); apply Hgen.
Qed.

(** X18: what is sent can be read back.  After a ['send-message'] that
    passes its guards, ['get-messages'] by any participant of the chat
    replies with the array as it was before, followed by the new message
    (tagged [sent] exactly when the reader is the sender), and changes
    nothing. *)
Theorem sent_message_is_read_back
    (e : Env) (socket cur cid : string) (text : option string)
    (file : option FileInfo.t) (st : Store) (chat : Chat.t)
    (socket' reader : string) :
  cur <> EmptyString -> cid <> EmptyString ->
  JS.truthy text = true \/ file <> None ->
  map_get cid (chats st) = Some chat ->
  In cur (Chat.participants chat) ->
  reader <> EmptyString -> In reader (Chat.participants chat) ->
  let st' :=
    fst (on_send_message e socket (Some cur) (Some cid) text file st) in
  let message :=
    Message.mk (generateId e) cid cur
      (JS.or_else (username_of (users st) cur) "Unknown")
      (JS.or_else text "") file (Date_now e) false in
  let before :=
    match map_get cid (messages st) with Some l => l | None => [] end in
  on_get_messages socket' (Some reader) (Some cid) st'
  = (st',
     [ (to_socket socket',
        messages_loaded cid
          (map (fun msg => view msg (String.eqb (Message.senderId msg) reader))
               before
           ++ [view message (String.eqb cur reader)])) ]).
Proof.
  intros Hcur Hcid Hbody Hchat Hin Hreader Hrin st' message before.
  assert (Hst : st' = mkStore (users st)
                        (map_set cid (before ++ [message]) (messages st))
                        (chats st)).
  { subst st'. unfold on_send_message.
    apply truthy_str_true in Hcur. apply truthy_str_true in Hcid.
    rewrite Hcur, Hcid. cbn [negb orb].
    assert (Hb : negb (JS.truthy text)
                 && negb (match file with Some _ => true | None => false end)
                 = false).
    { destruct Hbody as [Ht|Hf]; [now rewrite Ht|].
      destruct file; [apply andb_false_r | congruence]. }
    rewrite Hb, Hchat. apply includes_In in Hin. now rewrite Hin. }
  rewrite (get_messages_reply socket' reader cid st' chat (before ++ [message]));
    try assumption.
  - now rewrite map_app.
  - now rewrite Hst.
  - rewrite Hst. cbn [messages]. apply map_get_set_same.
Qed.

(** Bob sends "hi" and alice reads the chat: her hello, then bob's hi. *)
Lemma sent_message_is_read_back_witness :
  snd (on_get_messages "s1" (Some "u1"%string) (Some "u1-u2"%string)
         (fst (on_send_message (env_at 7 "m7") "s2" (Some "u2"%string)
                 (Some "u1-u2"%string) (Some "hi"%string) None (store demo))))
  = [ (to_socket "s1",
       messages_loaded "u1-u2"
         [ MsgView.mk "m5" "hello" None "u1" "alice" 5 true;
           MsgView.mk "m7" "hi" None "u2" "bob" 7 false ]) ].
Proof.
  pose proof (sent_message_is_read_back (env_at 7 "m7") "s2" "u2" "u1-u2"
                (Some "hi"%string) None (store demo)
                (Chat.mk ["u1"; "u2"]%string private None 4 None)
                "s1" "u1") as H.
  cbv zeta in H. rewrite H.
  - reflexivity.
  - discriminate.
  - discriminate.
  - now left.
  - reflexivity.
  - simpl. auto.
  - discriminate.
  - simpl. auto.
Defined.

(** ** The upload filter *)

Lemma prefix_append (tok s t : string) :
  String.prefix tok s = true -> String.prefix tok (String.append s t) = true.
Proof.
  revert s. induction tok as [|c tok IH]; intros s;
    [intros _; now destruct (String.append s t)|].
  destruct s as [|d s]; simpl; [discriminate|].
  destruct (Ascii.ascii_dec c d); [apply IH | discriminate].
Qed.

Lemma occurs_append_r (tok s t : string) :
  occurs tok s = true -> occurs tok (String.append s t) = true.
Proof.
  induction s as [|d s IH]; cbn [occurs String.append].
  - rewrite orb_false_r. intros H. destruct tok; [|discriminate].
    now destruct t.
  - intros H. apply orb_true_iff in H. apply orb_true_iff.
    destruct H as [H|H]; [left | right; now apply IH].
    now apply (prefix_append tok (String d s) t).
Qed.

Lemma occurs_append_l (tok p s : string) :
  occurs tok s = true -> occurs tok (String.append p s) = true.
Proof.
  intros H. induction p as [|d p IH]; [assumption|].
  cbn [occurs String.append]. rewrite IH. apply orb_true_r.
Qed.

Lemma allowedTypes_test_embedded (p s q : string) :
  allowedTypes_test s = true ->
  allowedTypes_test (String.append p (String.append s q)) = true.
Proof.
  unfold allowedTypes_test. rewrite !existsb_exists.
  intros (tok & Hin & Hocc). exists tok. split; [assumption|].
  now apply occurs_append_l, occurs_append_r.
Qed.

(** X19: the upload filter goes by occurrence, not by equality.  A file whose
    extension and MIME type are accepted stays accepted when either is
    wrapped in any other text; and a file with an empty extension, or with an
    empty MIME type, is always rejected. *)
Theorem fileFilter_by_occurrence (ext mime : string) :
  fileFilter EmptyString mime = false
  /\ fileFilter ext EmptyString = false
  /\ (fileFilter ext mime = true ->
      forall p q p' q',
        fileFilter (String.append p (String.append ext q))
          (String.append p' (String.append mime q')) = true).
Proof.
  unfold fileFilter. split; [reflexivity|]. split.
  - cbn. apply andb_false_r.
  - intros H p q p' q'. apply andb_true_iff in H. destruct H as [He Hm].
    apply andb_true_iff. split; now apply allowedTypes_test_embedded.
Qed.

(** ** Handlers in sequence *)

Lemma In_map_set_same {V : Type} (k : string) (v : V) (m : list (string * V)) :
  In (k, v) (map_set k v m).
Proof.
  induction m as [|[k0 v0] m IH]; simpl; [now left|].
  destruct (String.eqb k k0); simpl; auto.
Qed.

(** X20: a group shows up at the next login of each of its members.  After a
    ['create-group'] that passes its guard, a ['login'] under the name of the
    creator or of any listed member that is a registered user gets, in its
    ['login-success'] chat list, an entry for the new chat with the group's
    name, type and participants, whether or not that user was online when
    the group was created. *)
Theorem group_shows_up_at_next_login
    (e : Env) (socket cur : string) (name : option string)
    (members : list string) (st : Store)
    (e' : Env) (socket' : string) (uname : option string) (member : string) :
  cur <> EmptyString -> JS.truthy name = true -> members <> [] ->
  In member (cur :: members) -> member <> EmptyString ->
  find_by_username uname (users st) = Some member ->
  let st1 :=
    fst (on_create_group e socket (Some cur) name (Some members) st) in
  exists userChats s,
    snd (on_login e' socket' uname st1)
    = [ (to_socket socket', login_success member uname userChats);
        (broadcast_except socket', user_online member uname) ]
    /\ In s userChats
    /\ ChatSummary.chatId s = generateId e
    /\ ChatSummary.name s = JS.or_else name "Unknown"
    /\ ChatSummary.type s = group
    /\ ChatSummary.participants s = cur :: members.
Proof.
  intros Hcur Hname Hmem Hin Hmember Hfind st1.
  assert (Hst1 : st1 = mkStore (users st)
                         (map_set (generateId e) [] (messages st))
                         (map_set (generateId e)
                            (Chat.mk (cur :: members) group name (Date_now e)
                               (Some cur)) (chats st))).
  { subst st1. unfold on_create_group.
    apply truthy_str_true in Hcur. rewrite Hcur, Hname.
    destruct members; [congruence | reflexivity]. }
  rewrite Hst1. unfold on_login. cbn [users]. rewrite Hfind.
  apply truthy_str_true in Hmember. rewrite Hmember. cbn [snd chats].
  do 2 eexists. split; [reflexivity|]. split.
  - apply in_flat_map.
    exists (generateId e,
            Chat.mk (cur :: members) group name (Date_now e) (Some cur)).
    split; [apply In_map_set_same|].
    cbn [fst snd Chat.participants].
    apply includes_In in Hin. rewrite Hin. now left.
  - cbn [summarize ChatSummary.chatId ChatSummary.name ChatSummary.type
           ChatSummary.participants Chat.name Chat.type Chat.participants].
    repeat split. unfold JS.or_opt. now rewrite Hname.
Qed.

(** Mallory creates a group with bob while bob is away; bob logs in again. *)
Lemma group_shows_up_at_next_login_witness :
  exists userChats s,
    snd (on_login (env_at 9 "u9") "s5" (Some "bob"%string)
           (fst (on_create_group (env_at 8 "g8") "s3" (Some "u3"%string)
                   (Some "Team"%string) (Some ["u2"]%string)
                   (store demo_bob_gone))))
    = [ (to_socket "s5", login_success "u2" (Some "bob"%string) userChats);
        (broadcast_except "s5", user_online "u2" (Some "bob"%string)) ]
    /\ In s userChats
    /\ ChatSummary.chatId s = "g8"%string
    /\ ChatSummary.name s = "Team"%string
    /\ ChatSummary.type s = group
    /\ ChatSummary.participants s = ["u3"; "u2"]%string.
Proof.
  apply (group_shows_up_at_next_login (env_at 8 "g8") "s3" "u3"
           (Some "Team"%string) ["u2"]%string (store demo_bob_gone)
           (env_at 9 "u9") "s5" (Some "bob"%string) "u2").
  - discriminate.
  - reflexivity.
  - discriminate.
  - simpl. auto.
  - discriminate.
  - reflexivity.
Defined.
